(** * DocumentProcessor: chunking and lexical retrieval

    A shallow embedding of the [DocumentProcessor] class (the chunker
    [processFile] / [processPDF] / [processCSV] / [chunkText] and the
    retriever [findRelevantChunks]), of its callers in [App.tsx]
    ([handleFileUpload], [clearKnowledgeBase], [handleSendMessage]) and of
    [GeminiService.generateResponse], together with the properties its
    specification states about it and further properties read off the code.

    Conventions of the embedding:
    - a JavaScript string is the list of its code units; code units are
      taken in the range U+0000..U+00FF and carried by [ascii];
    - a JavaScript array is a [list]; [push] appends at the end;
    - an [async] method that resolves is [Normal v], one that rejects (or a
      synchronous [throw]) is [Throw e];
    - [console.log] is modelled by the list of lines written, returned next
      to the value;
    - the two [for] loops are well-founded recursions on the distance that
      the loop counter still has to travel;
    - the handlers of the component are functions on its state, run to
      their end one at a time; the model behind [generateContent], the
      clock and pdf.js are parameters. *)

From Equations Require Import Equations.
From Stdlib Require Import List String Ascii ZArith Arith Lia Bool.
From Stdlib Require Import DecimalString Sorted Permutation.
Import ListNotations.

Set Implicit Arguments.
Open Scope string_scope.
Open Scope list_scope.
Open Scope nat_scope.

(* ===================================================================== *)
(** * JavaScript strings *)
(* ===================================================================== *)

Module JsString.

Definition jsstring := list ascii.

Definition lit (s : string) : jsstring := list_ascii_of_string s.
Coercion lit : string >-> jsstring.

Definition code (c : ascii) : N := N_of_ascii c.

(** [String.prototype.toLowerCase], per code unit: A-Z and the Latin-1
    capitals U+00C0..U+00DE (U+00D7, the multiplication sign, apart). *)
Definition lowerChar (c : ascii) : ascii :=
  let n := code c in
  if ((65 <=? n) && (n <=? 90))%N
     || ((192 <=? n) && (n <=? 222) && negb (n =? 215))%N
  then ascii_of_N (n + 32)
  else c.

Definition toLowerCase (s : jsstring) : jsstring := map lowerChar s.

(** White space and line terminators as [trim] sees them: TAB, LF, VT, FF,
    CR, SPACE and NBSP. *)
Definition isWhiteSpace (c : ascii) : bool :=
  let n := code c in
  ((9 <=? n) && (n <=? 13) || (n =? 32) || (n =? 160))%N.

(** The class [\w] of a regular expression without the unicode flag. *)
Definition isWordChar (c : ascii) : bool :=
  let n := code c in
  ((48 <=? n) && (n <=? 57) || (65 <=? n) && (n <=? 90)
   || (97 <=? n) && (n <=? 122) || (n =? 95))%N.

Fixpoint trimStart (s : jsstring) : jsstring :=
  match s with
  | [] => []
  | c :: s' => if isWhiteSpace c then trimStart s' else s
  end.

Definition trimEnd (s : jsstring) : jsstring := rev (trimStart (rev s)).

Definition trim (s : jsstring) : jsstring := trimEnd (trimStart s).

(** [s.split(sep)] for a separator of one code unit. The result is never
    empty: the empty string splits into one empty string. *)
Fixpoint split (sep : ascii) (s : jsstring) : list jsstring :=
  match s with
  | [] => [[]]
  | c :: s' =>
      if Ascii.eqb c sep then [] :: split sep s'
      else match split sep s' with
           | [] => [[c]]
           | seg :: segs => (c :: seg) :: segs
           end
  end.

(** [s.split(/\W+/)]: the pieces between maximal runs of non-word code
    units. [cur] is the piece being read, [insep] tells that the previous
    code unit belonged to a separator run. A separator run at either end of
    the string leaves an empty piece there. *)
Fixpoint splitNonWordFrom (s : jsstring) (cur : jsstring) (insep : bool)
  : list jsstring :=
  match s with
  | [] => [cur]
  | c :: s' =>
      if isWordChar c then splitNonWordFrom s' (cur ++ [c]) false
      else if insep then splitNonWordFrom s' [] true
      else cur :: splitNonWordFrom s' [] true
  end.

Definition splitNonWord (s : jsstring) : list jsstring :=
  splitNonWordFrom s [] false.

Fixpoint startsWith (s needle : jsstring) : bool :=
  match needle, s with
  | [], _ => true
  | _ :: _, [] => false
  | a :: needle', b :: s' => Ascii.eqb a b && startsWith s' needle'
  end.

(** [s.includes(needle)]: [needle] occurs in [s] as a contiguous run. *)
Fixpoint includes (s needle : jsstring) : bool :=
  startsWith s needle
  || match s with
     | [] => false
     | _ :: s' => includes s' needle
     end.

(** [s.substring(a, b)] for non-negative integers: both ends are clamped
    to the length and swapped when out of order. *)
Definition substring (s : jsstring) (a b : nat) : jsstring :=
  let a' := Nat.min a (List.length s) in
  let b' := Nat.min b (List.length s) in
  let lo := Nat.min a' b' in
  let hi := Nat.max a' b' in
  firstn (hi - lo) (skipn lo s).

(** [parts.join(sep)]. *)
Fixpoint join (sep : jsstring) (parts : list jsstring) : jsstring :=
  match parts with
  | [] => []
  | [p] => p
  | p :: rest => p ++ sep ++ join sep rest
  end.

(** The decimal text of a loop counter inside a template literal. *)
Definition ofNat (n : nat) : jsstring :=
  lit (NilZero.string_of_uint (Nat.to_uint n)).

End JsString.
Import JsString.

(* ===================================================================== *)
(** * JavaScript arrays *)
(* ===================================================================== *)

Module JsArray.

Section Ops.
Variable A : Type.

(** The clamping of a relative index that [slice] performs. *)
Definition relIndex (len k : Z) : Z :=
  (if k <? 0 then Z.max (len + k) 0 else Z.min k len)%Z.

(** [l.slice(start, stop)]. *)
Definition slice (l : list A) (start stop : Z) : list A :=
  let len := Z.of_nat (List.length l) in
  let k := relIndex len start in
  let final := relIndex len stop in
  firstn (Z.to_nat (final - k)) (skipn (Z.to_nat k) l).

(** [l.slice(start)]. *)
Definition sliceFrom (l : list A) (start : Z) : list A :=
  slice l start (Z.of_nat (List.length l)).

(** [l.pop()] read as a value: the last element, [undefined] on []. *)
Definition pop (l : list A) : option A :=
  match rev l with
  | [] => None
  | x :: _ => Some x
  end.

(** [l.map((x, idx) => f x idx)]. *)
Fixpoint mapiFrom (B : Type) (f : A -> nat -> B) (idx : nat) (l : list A)
  : list B :=
  match l with
  | [] => []
  | x :: l' => f x idx :: mapiFrom f (S idx) l'
  end.

Definition mapi (B : Type) (f : A -> nat -> B) (l : list A) : list B :=
  mapiFrom f 0 l.

(** [l.sort(comparefn)]. The language requires the sort to be stable and,
    for a consistent comparator, to order the elements by it. For the
    comparator of the retriever that fixes the result ([sort_unique] below),
    which is computed here by insertion from the right: an element goes in
    front of the first one it does not have to follow. *)
Fixpoint insert (comparefn : A -> A -> Z) (x : A) (l : list A) : list A :=
  match l with
  | [] => [x]
  | y :: l' =>
      if (comparefn x y <=? 0)%Z then x :: y :: l'
      else y :: insert comparefn x l'
  end.

Definition sort (comparefn : A -> A -> Z) (l : list A) : list A :=
  fold_right (insert comparefn) [] l.

End Ops.

End JsArray.
Import JsArray.

(* ===================================================================== *)
(** * The data model ([types.ts]) *)
(* ===================================================================== *)

Record DocumentChunk : Type := mkChunk {
  fileName : jsstring;
  content : jsstring;
  index : nat
}.

(** What a call can throw: [new Error(message)], or the [TypeError] of the
    engine on a property read of [undefined] (its text is engine-defined and
    not modelled). *)
Inductive exn : Type :=
| Error (message : jsstring)
| TypeError.

Inductive completion (A : Type) : Type :=
| Normal (value : A)
| Throw (e : exn).
Arguments Normal {A} value.
Arguments Throw {A} e.

Definition bind (A B : Type) (c : completion A) (k : A -> completion B)
  : completion B :=
  match c with
  | Normal v => k v
  | Throw e => Throw e
  end.

Notation "'let*' x ':=' c 'in' k" := (bind c (fun x => k))
  (at level 10, x name, c at level 100, k at level 200).

(** A browser [File] as the processor reads it: its [name], the text that
    [file.text()] resolves to, and what pdf.js makes of its bytes: the text
    items of each page in page order, or the exception of a failed load. *)
Record File : Type := mkFile {
  name : jsstring;
  text : jsstring;
  pdfPages : completion (list (list jsstring))
}.

(** A value with the lines it wrote to the console. *)
Definition logged (A : Type) : Type := (A * list jsstring)%type.

(* ===================================================================== *)
(** * The chunker *)
(* ===================================================================== *)

Definition CHUNK_SIZE : nat := 4000.
Definition ROWS_PER_CHUNK : nat := 30.

(** The loop of [chunkText]:
    [for (let i = 0; i < text.length; i += CHUNK_SIZE) chunks.push(...)]. *)
Equations? chunkTextLoop (text fileName : jsstring) (i : nat)
  (chunks : list DocumentChunk) : list DocumentChunk
  by wf (List.length text - i) lt :=
  chunkTextLoop text fileName i chunks with lt_dec i (List.length text) := {
    | left _ =>
        chunkTextLoop text fileName (i + CHUNK_SIZE)
          (chunks ++ [ {| fileName := fileName;
                          content := substring text i (i + CHUNK_SIZE);
                          index := List.length chunks |} ]);
    | right _ => chunks }.
Proof. unfold CHUNK_SIZE. lia. Qed.

Definition chunkText (text fileName : jsstring) : list DocumentChunk :=
  chunkTextLoop text fileName 0 [].

(** The line feed, [\n]. *)
Definition newline : jsstring := [ascii_of_nat 10].

(** The text that [processPDF] accumulates over the pages, numbered from
    [i]: [fullText += `--- Page ${i} ---\n${pageText}\n\n`]. *)
Fixpoint pdfFullText (i : nat) (pages : list (list jsstring)) (fullText : jsstring)
  : jsstring :=
  match pages with
  | [] => fullText
  | items :: pages' =>
      let pageText := join " " items in
      pdfFullText (S i) pages'
        (fullText ++ lit "--- Page " ++ ofNat i ++ lit " ---" ++ newline
                  ++ pageText ++ newline ++ newline)
  end.

(** [pdfjsLoaded] is [typeof pdfjsLib !== 'undefined']. *)
Definition processPDF (pdfjsLoaded : bool) (file : File)
  : completion (list DocumentChunk) :=
  if negb pdfjsLoaded then Throw (Error "PDF.js library not loaded")
  else
    let* pages := pdfPages file in
    Normal (chunkText (pdfFullText 1 pages []) (name file)).

(** A template literal prints [undefined] by its name. [v] is the value of
    [values[idx]?.trim()], [None] standing for [undefined]. *)
Definition templateValue (v : option jsstring) : jsstring :=
  match v with
  | Some s => s
  | None => "undefined"
  end.

Definition formatRow (headers : list jsstring) (row : jsstring) : jsstring :=
  let values := split ","%char row in
  join " | "
    (mapi (fun h idx =>
             trim h ++ lit ": "
             ++ templateValue (option_map trim (nth_error values idx)))
          headers).

(** The loop of [processCSV]:
    [for (let i = 0; i < dataRows.length; i += ROWS_PER_CHUNK) ...]. *)
Equations? processCSVLoop (fileName : jsstring) (headers dataRows : list jsstring)
  (i : nat) (chunks : list DocumentChunk) : list DocumentChunk
  by wf (List.length dataRows - i) lt :=
  processCSVLoop fileName headers dataRows i chunks
    with lt_dec i (List.length dataRows) := {
    | left _ =>
        let chunkRows :=
          slice dataRows (Z.of_nat i) (Z.of_nat (i + ROWS_PER_CHUNK)) in
        let formattedContent := join newline (map (formatRow headers) chunkRows) in
        processCSVLoop fileName headers dataRows (i + ROWS_PER_CHUNK)
          (chunks ++ [ {| fileName := fileName;
                          content := lit "[CSV Header: " ++ join ", " headers ++ lit "]"
                                     ++ newline ++ formattedContent;
                          index := List.length chunks |} ]);
    | right _ => chunks }.
Proof. unfold ROWS_PER_CHUNK. lia. Qed.

(** The rows that [processCSV] keeps: lines trimmed, blank ones dropped. *)
Definition csvRows (text : jsstring) : list jsstring :=
  filter (fun row => 0 <? List.length row)
         (map trim (split (ascii_of_nat 10) text)).

Definition processCSV (file : File) : completion (list DocumentChunk) :=
  let rows := csvRows (text file) in
  (* rows[0].split(','): a property read of undefined when rows is empty *)
  let* headers :=
    match nth_error rows 0 with
    | Some row0 => Normal (split ","%char row0)
    | None => Throw TypeError
    end in
  let dataRows := sliceFrom rows 1 in
  Normal (processCSVLoop (name file) headers dataRows 0 []).

(** [file.name.split('.').pop()?.toLowerCase()]. *)
Definition extension (file : File) : option jsstring :=
  option_map toLowerCase (pop (split "."%char (name file))).

Definition eqString (a b : jsstring) : bool :=
  if list_eq_dec ascii_dec a b then true else false.

Definition isExtension (e : option jsstring) (s : jsstring) : bool :=
  match e with
  | Some x => eqString x s
  | None => false
  end.

Definition processFile (pdfjsLoaded : bool) (file : File)
  : completion (list DocumentChunk) :=
  let extension := extension file in
  if isExtension extension "pdf" then processPDF pdfjsLoaded file
  else if isExtension extension "csv" then processCSV file
  else Throw (Error "Unsupported file type. Please upload PDF or CSV.").

(* ===================================================================== *)
(** * The retriever *)
(* ===================================================================== *)

Record ScoredChunk : Type := mkScored {
  chunk : DocumentChunk;
  score : Z
}.

Definition aggregationKeywords : list jsstring :=
  map lit ["total"; "count"; "sum"; "average"; "summary"; "report";
           "analyze"; "overview"; "all"]%string.

(** [query.toLowerCase().split(/\W+/).filter(t => t.length > 2)]. *)
Definition queryTermsOf (query : jsstring) : list jsstring :=
  filter (fun t => 2 <? List.length t) (splitNonWord (toLowerCase query)).

Definition isAggregationOf (query : jsstring) : bool :=
  existsb (fun term => includes (toLowerCase query) term) aggregationKeywords.

(** The callback of [chunks.map] that scores one chunk. *)
Definition scoreChunk (query : jsstring) (queryTerms : list jsstring)
  (c : DocumentChunk) : ScoredChunk :=
  let contentLower := toLowerCase (content c) in
  let score := 0%Z in
  let score :=
    if includes contentLower (toLowerCase query) then (score + 10)%Z else score in
  let score :=
    fold_left (fun score term =>
                 if includes contentLower term then (score + 1)%Z else score)
              queryTerms score in
  {| chunk := c; score := score |}.

Definition scoredChunksOf (query : jsstring) (chunks : list DocumentChunk)
  : list ScoredChunk :=
  map (scoreChunk query (queryTermsOf query)) chunks.

Definition byScoreDescending (a b : ScoredChunk) : Z := (score b - score a)%Z.

(** The chain [filter / sort / slice / map] that builds [relevant]. *)
Definition relevantOf (query : jsstring) (chunks : list DocumentChunk) (limit : Z)
  : list DocumentChunk :=
  let isAggregation := isAggregationOf query in
  map chunk
    (slice
       (sort byScoreDescending
          (filter (fun item => (0 <? score item)%Z) (scoredChunksOf query chunks)))
       0 (if isAggregation then limit * 2 else limit)%Z).

Definition DEFAULT_LIMIT : Z := 30.

Definition findRelevantChunks (query : jsstring) (chunks : list DocumentChunk)
  (limit : Z) : logged (list DocumentChunk) :=
  let isAggregation := isAggregationOf query in
  if isAggregation && (List.length chunks <? 50) then
    (chunks, [lit "Aggregation detected for small dataset. Returning all chunks."])
  else
    let relevant := relevantOf query chunks limit in
    if (List.length relevant =? 0) && (0 <? List.length chunks) then
      let fallbackLimit := (if isAggregation then 20 else 5)%Z in
      (slice chunks 0 fallbackLimit,
       [lit "No keyword matches found. Falling back to first chunks."])
    else
      (relevant, []).

(* ===================================================================== *)
(** * The remaining types of [types.ts] *)
(* ===================================================================== *)

Module Msg.

Inductive Role : Type := user | assistant | system.

(** [sources] is optional: [None] when the field is absent. *)
Record Message : Type := mkMessage {
  id : jsstring;
  role : Role;
  content : jsstring;
  timestamp : Z;
  sources : option (list jsstring)
}.

End Msg.

Module KB.

Record KnowledgeBase : Type := mkKnowledgeBase {
  chunks : list DocumentChunk;
  fileNames : list jsstring
}.

End KB.

(* ===================================================================== *)
(** * The generation request ([geminiService.ts]) *)
(* ===================================================================== *)

Module Gemini.

(** One entry of [contents]: [{ role, parts: [{ text }] }], the parts given
    by their texts. *)
Record Content : Type := mkContent {
  role : jsstring;
  parts : list jsstring
}.

(** The argument of [generateContent]. The temperature is kept as the
    literal of the source. *)
Record Request : Type := mkRequest {
  model : jsstring;
  contents : list Content;
  systemInstruction : jsstring;
  temperature : jsstring
}.

Definition noContext : jsstring :=
  lit "No specific document context found. Answer from your general knowledge but mention that no relevant document sections were found.".

(** [`[From ${c.fileName}]: ${c.content}`]. *)
Definition citation (c : DocumentChunk) : jsstring :=
  lit "[From " ++ fileName c ++ lit "]: " ++ content c.

Definition contextOf (relevantChunks : list DocumentChunk) : jsstring :=
  if 0 <? List.length relevantChunks then
    lit "Use the following context to answer the user question. If the answer is not in the context, say you don't know based on the documents."
    ++ newline ++ lit "      "
    ++ newline ++ lit "      CONTEXT:"
    ++ newline ++ lit "      "
    ++ join (newline ++ newline) (map citation relevantChunks)
    ++ newline ++ lit "      "
  else noContext.

Definition systemInstructionOf (context : jsstring) : jsstring :=
  lit "You are a helpful AI assistant. "
  ++ newline ++ lit "    You have access to a knowledge base of uploaded documents."
  ++ newline ++ lit "    " ++ context
  ++ newline ++ lit "    "
  ++ newline
  ++ lit "    Always be concise, accurate, and citation-friendly. Use markdown for formatting.".

Definition requestOf (userMessage : jsstring) (history : list Msg.Message)
  (relevantChunks : list DocumentChunk) : Request :=
  let context := contextOf relevantChunks in
  let systemInstruction := systemInstructionOf context in
  {| model := lit "gemini-3-flash-preview";
     contents :=
       map (fun m =>
              {| role := match Msg.role m with
                         | Msg.user => lit "user"
                         | _ => lit "model"
                         end;
                 parts := [Msg.content m] |})
           history
       ++ [ {| role := lit "user"; parts := [userMessage] |} ];
     systemInstruction := systemInstruction;
     temperature := lit "0.7" |}.

Definition apology : jsstring :=
  lit "I'm sorry, I couldn't generate a response.".

(** [generateResponse]. [ai] stands for [this.ai.models.generateContent]:
    it resolves to the [text] of the response, [None] when that is
    [undefined], or rejects. [response.text || apology] takes the apology
    for an undefined and for an empty text. A rejection is logged and thrown
    again. *)
Definition generateResponse (ai : Request -> completion (option jsstring))
  (userMessage : jsstring) (history : list Msg.Message)
  (relevantChunks : list DocumentChunk) : logged (completion jsstring) :=
  match ai (requestOf userMessage history relevantChunks) with
  | Normal responseText =>
      (Normal (match responseText with
               | Some (c :: s) => c :: s
               | Some [] => apology
               | None => apology
               end), [])
  | Throw error => (Throw error, [lit "Gemini API Error:"])
  end.

End Gemini.

(* ===================================================================== *)
(** * The callers ([App.tsx]) *)
(* ===================================================================== *)

Module App.

(** The state of the component that the handlers read and write. *)
Record State : Type := mkState {
  messages : list Msg.Message;
  inputText : jsstring;
  isLoading : bool;
  knowledgeBase : KB.KnowledgeBase;
  isProcessing : bool
}.

(** [names.includes(x)] on an array of strings. *)
Definition arrayIncludes (names : list jsstring) (x : jsstring) : bool :=
  existsb (eqString x) names.

(** The loop of [handleFileUpload] over the picked files. A file whose
    name the knowledge base knows is passed over; an exception of
    [processFile] leaves the loop. *)
Fixpoint uploadLoop (pdfjsLoaded : bool) (knowledgeBase : KB.KnowledgeBase)
  (files : list File) (allNewChunks : list DocumentChunk)
  (newFileNames : list jsstring)
  : completion (list DocumentChunk * list jsstring) :=
  match files with
  | [] => Normal (allNewChunks, newFileNames)
  | file :: files' =>
      if arrayIncludes (KB.fileNames knowledgeBase) (name file) then
        uploadLoop pdfjsLoaded knowledgeBase files' allNewChunks newFileNames
      else
        let* chunks := processFile pdfjsLoaded file in
        uploadLoop pdfjsLoaded knowledgeBase files'
          (allNewChunks ++ chunks) (newFileNames ++ [name file])
  end.

Definition uploadAlert : jsstring :=
  lit "Error processing files. Please check file formats.".

(** [handleFileUpload], run to its end with no other update of the state in
    between, so that [prev] of the state update is the knowledge base the
    handler started from. Returned: the state, and the alerts shown. *)
Definition handleFileUpload (pdfjsLoaded : bool) (st : State)
  (files : list File) : State * list jsstring :=
  if List.length files =? 0 then (st, [])
  else
    match uploadLoop pdfjsLoaded (knowledgeBase st) files [] [] with
    | Normal (allNewChunks, newFileNames) =>
        let prev := knowledgeBase st in
        ({| messages := messages st;
            inputText := inputText st;
            isLoading := isLoading st;
            knowledgeBase :=
              {| KB.chunks := KB.chunks prev ++ allNewChunks;
                 KB.fileNames := KB.fileNames prev ++ newFileNames |};
            isProcessing := false |}, [])
    | Throw _ =>
        ({| messages := messages st;
            inputText := inputText st;
            isLoading := isLoading st;
            knowledgeBase := knowledgeBase st;
            isProcessing := false |}, [uploadAlert])
    end.

Definition clearKnowledgeBase (st : State) : State :=
  {| messages := messages st;
     inputText := inputText st;
     isLoading := isLoading st;
     knowledgeBase := {| KB.chunks := []; KB.fileNames := [] |};
     isProcessing := isProcessing st |}.

(** [Array.from(new Set(xs))]: the elements of [xs] without repetition, in
    the order of their first occurrences. *)
Definition setAdd (set : list jsstring) (x : jsstring) : list jsstring :=
  if arrayIncludes set x then set else set ++ [x].

Definition arrayFromSet (xs : list jsstring) : list jsstring :=
  fold_left setAdd xs [].

(** [n.toString()] for an integer. *)
Definition ofZ (n : Z) : jsstring :=
  lit (NilZero.string_of_int (Z.to_int n)).

Definition oops : jsstring :=
  lit "Oops! Something went wrong while generating the response.".

(** [handleSendMessage], run to its end with no other update of the state
    in between. [now k] is what the [k]-th call of [Date.now()] returns;
    [messages.slice(-5)] reads the messages the handler started from. The
    service behind [geminiRef] is taken to exist. *)
Definition handleSendMessage (ai : Gemini.Request -> completion (option jsstring))
  (now : nat -> Z) (st : State) : State :=
  if (List.length (trim (inputText st)) =? 0) || isLoading st then st
  else
    let userMessage :=
      {| Msg.id := ofZ (now 0); Msg.role := Msg.user;
         Msg.content := inputText st; Msg.timestamp := now 1;
         Msg.sources := None |} in
    let relevantChunks :=
      fst (findRelevantChunks (inputText st) (KB.chunks (knowledgeBase st))
             DEFAULT_LIMIT) in
    let reply :=
      match fst (Gemini.generateResponse ai (inputText st)
                   (sliceFrom (messages st) (-5)) relevantChunks) with
      | Normal responseText =>
          {| Msg.id := ofZ (now 2 + 1); Msg.role := Msg.assistant;
             Msg.content := responseText; Msg.timestamp := now 3;
             Msg.sources := Some (arrayFromSet (map fileName relevantChunks)) |}
      | Throw _ =>
          {| Msg.id := ofZ (now 2); Msg.role := Msg.system;
             Msg.content := oops; Msg.timestamp := now 3;
             Msg.sources := None |}
      end in
    {| messages := messages st ++ [userMessage] ++ [reply];
       inputText := [];
       isLoading := false;
       knowledgeBase := knowledgeBase st;
       isProcessing := isProcessing st |}.

(** The state the component starts in. *)
Definition initial : State :=
  {| messages := []; inputText := []; isLoading := false;
     knowledgeBase := {| KB.chunks := []; KB.fileNames := [] |};
     isProcessing := false |}.

End App.

(* ===================================================================== *)
(** * Notions used in the statements *)
(* ===================================================================== *)

Section KeyOrder.
Variable A : Type.
Variable key : A -> Z.

(** The comparator [(a, b) => key(b) - key(a)]. *)
Definition keyDescending (a b : A) : Z := (key b - key a)%Z.

(** [x] has the key [s]. *)
Definition hasKey (s : Z) (x : A) : bool := (key x =? s)%Z.

(** [b] may follow [a] in a list ordered by key, highest first. *)
Definition notBelow (a b : A) : Prop := (key b <= key a)%Z.
End KeyOrder.

(** [ceilDiv a b] is the least [n] with [a <= n * b], for [0 < b]. *)
Definition ceilDiv (a b : nat) : nat := (a + b - 1) / b.

(** The chunk that the loop of [chunkText] pushes in its [j]-th round. *)
Definition textPiece (text fileName : jsstring) (j : nat) : DocumentChunk :=
  {| fileName := fileName;
     content := substring text (j * CHUNK_SIZE) (j * CHUNK_SIZE + CHUNK_SIZE);
     index := j |}.

(** The chunk that the loop of [processCSV] pushes when its counter is [i]
    and [chunks] have been pushed before. *)
Definition csvPiece (fileName : jsstring) (headers dataRows : list jsstring)
  (i : nat) (chunks : list DocumentChunk) : DocumentChunk :=
  {| fileName := fileName;
     content :=
       lit "[CSV Header: " ++ join ", " headers ++ lit "]" ++ newline
       ++ join newline
            (map (formatRow headers)
               (slice dataRows (Z.of_nat i) (Z.of_nat (i + ROWS_PER_CHUNK))));
     index := List.length chunks |}.

(** The positions of the chunks are 0, 1, ..., n-1, in this order. *)
Definition positionsContiguous (chunks : list DocumentChunk) : Prop :=
  map index chunks = seq 0 (List.length chunks).

(** A text of white space and line breaks only; the empty text is one. *)
Definition blank (s : jsstring) : Prop :=
  Forall (fun c => isWhiteSpace c = true) s.

(** The message of the error that [processFile] throws. *)
Definition unsupportedMessage : jsstring :=
  lit "Unsupported file type. Please upload PDF or CSV.".

(** The score that [findRelevantChunks] gives a chunk under a query. *)
Definition scoreOf (query : jsstring) (c : DocumentChunk) : Z :=
  score (scoreChunk query (queryTermsOf query) c).

(** The second argument of the [slice] that bounds [relevant]. *)
Definition boundOf (query : jsstring) (limit : Z) : Z :=
  (if isAggregationOf query then limit * 2 else limit)%Z.

(** [relevant] told by positions in the collection: [noChunk] fills the
    reads out of range, of which there are none. *)
Definition noChunk : DocumentChunk := mkChunk [] [] 0.

Definition scoreAt (query : jsstring) (chunks : list DocumentChunk) (i : nat) : Z :=
  scoreOf query (nth i chunks noChunk).

Definition relevantPositions (query : jsstring) (chunks : list DocumentChunk)
  (limit : Z) : list nat :=
  slice (sort (keyDescending (scoreAt query chunks))
           (filter (fun i => (0 <? scoreAt query chunks i)%Z)
                   (seq 0 (List.length chunks))))
        0 (boundOf query limit).

(** The two lines that [findRelevantChunks] can write to the console. *)
Definition aggregationLine : jsstring :=
  lit "Aggregation detected for small dataset. Returning all chunks.".

Definition fallbackLine : jsstring :=
  lit "No keyword matches found. Falling back to first chunks.".

(** The rows of the [j]-th batch of a table, and the chunk made of them. *)
Definition csvBatch (dataRows : list jsstring) (j : nat) : list jsstring :=
  firstn ROWS_PER_CHUNK (skipn (j * ROWS_PER_CHUNK) dataRows).

Definition csvBatchChunk (fileName : jsstring) (headers dataRows : list jsstring)
  (j : nat) : DocumentChunk :=
  {| fileName := fileName;
     content :=
       lit "[CSV Header: " ++ join ", " headers ++ lit "]" ++ newline
       ++ join newline (map (formatRow headers) (csvBatch dataRows j));
     index := j |}.

(** Every chunk of the knowledge base names a file that the knowledge base
    lists. *)
Definition kbWellFormed (kb : KB.KnowledgeBase) : Prop :=
  Forall (fun c => In (fileName c) (KB.fileNames kb)) (KB.chunks kb).

(** The file is not yet listed in the knowledge base. *)
Definition fresh (kb : KB.KnowledgeBase) (file : File) : bool :=
  negb (App.arrayIncludes (KB.fileNames kb) (name file)).

(** The chunks of each file, taken out of the knowledge base in order,
    carry the positions 0, 1, ..., n-1. *)
Definition perSourcePositions (kb : KB.KnowledgeBase) : Prop :=
  forall source,
    positionsContiguous
      (filter (fun c => eqString (fileName c) source) (KB.chunks kb)).

(* ===================================================================== *)
(** * Sample inputs *)
(* ===================================================================== *)

(** A table of a header and 65 data rows, as a file. *)
Definition sampleTable : File :=
  {| name := lit "report.csv";
     text := lit "region,units" ++ newline
             ++ List.concat (repeat (lit "north,12" ++ newline) 65);
     pdfPages := Throw TypeError |}.

Definition sampleTableChunks : list DocumentChunk :=
  Eval vm_compute in
    match processCSV sampleTable with
    | Normal chunks => chunks
    | Throw _ => []
    end.

(** A table of two lines of spaces. *)
Definition blankTable : File :=
  {| name := lit "empty.csv";
     text := lit "  " ++ newline ++ lit " " ++ newline;
     pdfPages := Throw TypeError |}.

(** A table whose data row has one field for two headers. *)
Definition shortRowTable : File :=
  {| name := lit "people.csv";
     text := lit "name,age" ++ newline ++ lit "Bob";
     pdfPages := Throw TypeError |}.

(** A document of two pages, as pdf.js reads it. *)
Definition samplePdf : File :=
  {| name := lit "Book.PDF";
     text := [];
     pdfPages := Normal [ map lit ["Hello"; "world"]%string;
                          map lit ["Bye"]%string ] |}.

(** A state with the two-page document indexed and a question typed. *)
Definition askingState : App.State :=
  {| App.messages := [];
     App.inputText := lit "  Hello?  ";
     App.isLoading := false;
     App.knowledgeBase :=
       {| KB.chunks := chunkText "--- Page 1 ---" "Book.PDF";
          KB.fileNames := [lit "Book.PDF"] |};
     App.isProcessing := false |}.

(** A model that answers every request with the same text, one that
    answers with no text, one that fails. *)
Definition aiSays (answer : jsstring) (_ : Gemini.Request)
  : completion (option jsstring) := Normal (Some answer).

Definition aiMute (_ : Gemini.Request) : completion (option jsstring) :=
  Normal None.

Definition aiDown (_ : Gemini.Request) : completion (option jsstring) :=
  Throw (Error (lit "503")).

(** A file of a kind that the processor does not know. *)
Definition notesTxt : File :=
  {| name := lit "notes.txt"; text := lit "hello"; pdfPages := Throw TypeError |}.

Definition tenChunks : list DocumentChunk :=
  map (fun i => mkChunk "report.csv" (lit "rows of batch " ++ ofNat i) i) (seq 0 10).

Definition sixChunks : list DocumentChunk :=
  map (fun i => mkChunk "notes.pdf" (lit "part " ++ ofNat i) i) (seq 0 6).

Definition fruitChunks : list DocumentChunk :=
  [ mkChunk "fruit.pdf" "apple banana" 0;
    mkChunk "fruit.pdf" "banana cherry" 1;
    mkChunk "fruit.pdf" "apple apple cherry" 2 ].

(** Five chunks: the query terms tax and rate are both in three of them,
    one of the two in one, neither in one. *)
Definition taxChunks : list DocumentChunk :=
  [ mkChunk "a.pdf" "the tax rate rose" 0;
    mkChunk "a.pdf" "weather report" 1;
    mkChunk "a.pdf" "a flat rate applies" 2;
    mkChunk "b.pdf" "rate of tax" 3;
    mkChunk "b.pdf" "tax and rate" 4 ].

(* ===================================================================== *)
(** * Facts about strings and arrays *)
(* ===================================================================== *)

Section ListFacts.
Variable A : Type.

Lemma firstn_then_more (a c : nat) (l : list A) :
  firstn a l ++ firstn c (skipn a l) = firstn (a + c) l.
Proof.
  revert l. induction a as [|a IH]; intros l; simpl.
  - reflexivity.
  - destruct l as [|x l]; simpl.
    + now rewrite firstn_nil.
    + now rewrite IH.
Qed.

Lemma slice_nonneg (l : list A) (a b : nat) :
  slice l (Z.of_nat a) (Z.of_nat b) = firstn (b - a) (skipn a l).
Proof.
  unfold slice, relIndex.
  destruct (Z.ltb_spec (Z.of_nat a) 0); [lia|].
  destruct (Z.ltb_spec (Z.of_nat b) 0); [lia|].
  destruct (le_lt_dec (List.length l) a) as [Ha|Ha].
  - rewrite (skipn_all2 l) by lia.
    rewrite (skipn_all2 l) by lia.
    now rewrite !firstn_nil.
  - replace (Z.to_nat (Z.min (Z.of_nat a) (Z.of_nat (List.length l)))) with a by lia.
    destruct (le_lt_dec b (List.length l)) as [Hb|Hb].
    + f_equal. lia.
    + rewrite !firstn_all2; trivial; rewrite length_skipn; lia.
Qed.

Lemma slice_prefix (l : list A) (stop : Z) :
  exists n, slice l 0 stop = firstn n l.
Proof.
  unfold slice. eexists.
  replace (relIndex (Z.of_nat (List.length l)) 0) with 0%Z.
  - simpl skipn. rewrite Z.sub_0_r. reflexivity.
  - unfold relIndex. simpl. lia.
Qed.

Lemma sliceFrom_1 (l : list A) : sliceFrom l 1 = tl l.
Proof.
  unfold sliceFrom. change 1%Z with (Z.of_nat 1).
  rewrite slice_nonneg. destruct l as [|x l]; [reflexivity|].
  simpl. rewrite Nat.sub_0_r. apply firstn_all.
Qed.
End ListFacts.

Lemma substring_ordered (s : jsstring) (a b : nat) :
  a <= b -> substring s a b = firstn (b - a) (skipn a s).
Proof.
  intros Hab. unfold substring.
  destruct (le_lt_dec (List.length s) a) as [Ha|Ha].
  - rewrite (skipn_all2 s) by lia.
    rewrite (skipn_all2 s) by lia.
    now rewrite !firstn_nil.
  - replace (Nat.min (Nat.min a (List.length s)) (Nat.min b (List.length s)))
      with a by lia.
    destruct (le_lt_dec b (List.length s)) as [Hb|Hb].
    + f_equal. lia.
    + rewrite !firstn_all2; trivial; rewrite length_skipn; lia.
Qed.

(* ===================================================================== *)
(** * The chunker: closed form of the free-text loop *)
(* ===================================================================== *)

Lemma ceilDiv_spec (a b n : nat) :
  0 < b -> (ceilDiv a b <= n <-> a <= n * b).
Proof.
  intros Hb. unfold ceilDiv. split; intros H.
  - pose proof (Nat.div_mod_eq (a + b - 1) b) as E.
    pose proof (Nat.mod_upper_bound (a + b - 1) b ltac:(lia)) as U.
    nia.
  - destruct (le_lt_dec ((a + b - 1) / b) n) as [|Hn]; trivial.
    exfalso.
    assert (S n * b <= a + b - 1).
    { apply Nat.le_trans with (b * ((a + b - 1) / b)).
      - rewrite (Nat.mul_comm b). apply Nat.mul_le_mono_r. lia.
      - apply Nat.Div0.mul_div_le. }
    nia.
Qed.

Lemma CHUNK_SIZE_pos : 0 < CHUNK_SIZE.
Proof. unfold CHUNK_SIZE. lia. Qed.

Lemma chunkTextLoop_step (text fileName : jsstring) (i : nat)
  (chunks : list DocumentChunk) :
  chunkTextLoop text fileName i chunks =
  if lt_dec i (List.length text) then
    chunkTextLoop text fileName (i + CHUNK_SIZE)
      (chunks ++ [ {| fileName := fileName;
                      content := substring text i (i + CHUNK_SIZE);
                      index := List.length chunks |} ])
  else chunks.
Proof.
  rewrite chunkTextLoop_equation_1.
  destruct (lt_dec i (List.length text)); reflexivity.
Qed.

Lemma chunkTextLoop_closed (text fileName : jsstring) (i : nat)
  (chunks : list DocumentChunk) :
  i = List.length chunks * CHUNK_SIZE ->
  chunkTextLoop text fileName i chunks =
  chunks ++ map (textPiece text fileName)
                (seq (List.length chunks)
                     (ceilDiv (List.length text) CHUNK_SIZE - List.length chunks)).
Proof.
  remember (List.length text - i) as m eqn:Hm.
  revert i chunks Hm.
  induction m as [m IH] using lt_wf_ind; intros i chunks Hm Hi.
  pose proof CHUNK_SIZE_pos as Hpos.
  rewrite chunkTextLoop_step.
  destruct (lt_dec i (List.length text)) as [Hlt|Hge].
  - rewrite (IH (List.length text - (i + CHUNK_SIZE))); trivial;
      [| lia | rewrite length_app; simpl; lia].
    rewrite length_app. simpl List.length.
    assert (Hk : List.length chunks < ceilDiv (List.length text) CHUNK_SIZE).
    { destruct (le_lt_dec (ceilDiv (List.length text) CHUNK_SIZE)
                          (List.length chunks)) as [Hle|]; trivial.
      apply (ceilDiv_spec _ _ Hpos) in Hle. lia. }
    replace (ceilDiv (List.length text) CHUNK_SIZE - List.length chunks)
      with (S (ceilDiv (List.length text) CHUNK_SIZE - (List.length chunks + 1)))
      by lia.
    rewrite <- app_assoc. cbn [seq map app]. unfold textPiece at 2.
    rewrite <- Hi. now rewrite Nat.add_1_r.
  - assert (Hle : ceilDiv (List.length text) CHUNK_SIZE <= List.length chunks).
    { apply (ceilDiv_spec _ _ Hpos). lia. }
    replace (ceilDiv (List.length text) CHUNK_SIZE - List.length chunks) with 0
      by lia.
    simpl. now rewrite app_nil_r.
Qed.

Lemma chunkText_closed (text fileName : jsstring) :
  chunkText text fileName =
  map (textPiece text fileName) (seq 0 (ceilDiv (List.length text) CHUNK_SIZE)).
Proof.
  unfold chunkText. rewrite chunkTextLoop_closed by reflexivity.
  simpl. now rewrite Nat.sub_0_r.
Qed.

Lemma nth_error_map_seq (B : Type) (f : nat -> B) (n j : nat) (b : B) :
  nth_error (map f (seq 0 n)) j = Some b -> j < n /\ b = f j.
Proof.
  intros H.
  assert (Hj : j < n).
  { assert (Hlen : j < List.length (map f (seq 0 n)))
      by (apply nth_error_Some; congruence).
    now rewrite length_map, length_seq in Hlen. }
  split; trivial.
  rewrite nth_error_map, nth_error_seq in H.
  destruct (Nat.ltb_spec j n); [|lia].
  simpl in H. congruence.
Qed.

Lemma textPiece_full (text fileName : jsstring) (j : nat) :
  S j < ceilDiv (List.length text) CHUNK_SIZE ->
  List.length (content (textPiece text fileName j)) = CHUNK_SIZE.
Proof.
  intros Hj. pose proof CHUNK_SIZE_pos as Hpos.
  assert (Hlt : S j * CHUNK_SIZE < List.length text).
  { destruct (le_lt_dec (List.length text) (S j * CHUNK_SIZE)) as [Hle|]; trivial.
    apply (ceilDiv_spec _ (S j) Hpos) in Hle. lia. }
  rewrite Nat.mul_succ_l in Hlt.
  unfold textPiece, content.
  rewrite substring_ordered by lia.
  rewrite length_firstn, length_skipn. lia.
Qed.

Lemma textPieces_concat (text fileName : jsstring) (n : nat) :
  List.concat (map content (map (textPiece text fileName) (seq 0 n)))
  = firstn (n * CHUNK_SIZE) text.
Proof.
  induction n as [|n IH].
  - reflexivity.
  - rewrite seq_S, !map_app, concat_app, IH. cbn [map List.concat plus].
    rewrite app_nil_r. unfold textPiece, content.
    rewrite substring_ordered by lia.
    replace (n * CHUNK_SIZE + CHUNK_SIZE - n * CHUNK_SIZE) with CHUNK_SIZE by lia.
    rewrite firstn_then_more. now rewrite Nat.mul_succ_l.
Qed.

Lemma chunkText_length (text fileName : jsstring) :
  List.length (chunkText text fileName) = ceilDiv (List.length text) CHUNK_SIZE.
Proof. now rewrite chunkText_closed, length_map, length_seq. Qed.

Lemma chunkText_index (text fileName : jsstring) :
  map index (chunkText text fileName)
  = seq 0 (List.length (chunkText text fileName)).
Proof.
  rewrite chunkText_length, chunkText_closed, map_map.
  unfold textPiece, index. apply map_id.
Qed.

(** C5. A free text of length L > 0 is cut into ceil(L / CHUNK_SIZE) chunks,
    CHUNK_SIZE being 4000; every chunk but the last holds exactly CHUNK_SIZE
    code units; the contents, concatenated in order, give the text back. *)
Theorem chunkText_count_size_roundtrip (text fileName : jsstring) :
  0 < List.length text ->
  CHUNK_SIZE = 4000 /\
  List.length (chunkText text fileName) = ceilDiv (List.length text) CHUNK_SIZE /\
  (forall j c,
      nth_error (chunkText text fileName) j = Some c ->
      S j < List.length (chunkText text fileName) ->
      List.length (content c) = CHUNK_SIZE) /\
  List.concat (map content (chunkText text fileName)) = text.
Proof.
  intros _. split; [reflexivity|]. split; [apply chunkText_length|]. split.
  - intros j c Hc Hj. rewrite chunkText_length in Hj.
    rewrite chunkText_closed in Hc.
    apply nth_error_map_seq in Hc as [_ ->].
    now apply textPiece_full.
  - rewrite chunkText_closed, textPieces_concat.
    apply firstn_all2.
    now apply (ceilDiv_spec _ _ CHUNK_SIZE_pos).
Qed.

(** Witness of C5 on a short text. *)
Lemma chunkText_count_size_roundtrip_witness :
  0 < List.length (lit "hello world") /\
  (CHUNK_SIZE = 4000 /\
   List.length (chunkText "hello world" "a.pdf")
   = ceilDiv (List.length (lit "hello world")) CHUNK_SIZE /\
   (forall j c,
       nth_error (chunkText "hello world" "a.pdf") j = Some c ->
       S j < List.length (chunkText "hello world" "a.pdf") ->
       List.length (content c) = CHUNK_SIZE) /\
   List.concat (map content (chunkText "hello world" "a.pdf")) = lit "hello world").
Proof.
  split; [simpl; lia|].
  apply (chunkText_count_size_roundtrip (lit "hello world") (lit "a.pdf")).
  simpl; lia.
Defined.

(** Scenario D: 8000 code units give two chunks, at positions 0 and 1, of
    4000 code units each. *)
Example chunkText_scenario_D :
  let text := repeat "x"%char (2 * CHUNK_SIZE) in
  map (fun c => (index c, List.length (content c))) (chunkText text "d.pdf")
  = [(0, 4000); (1, 4000)].
Proof. vm_compute. reflexivity. Qed.

(** C3 as stated fails: a text of three spaces is one chunk of three
    spaces. *)
Lemma chunkText_whitespace_counterexample :
  forallb isWhiteSpace (lit "   ") = true /\
  chunkText "   " "notes.pdf" = [mkChunk "notes.pdf" "   " 0] /\
  chunkText "   " "notes.pdf" <> [].
Proof.
  split; [reflexivity|]. split; [reflexivity|]. discriminate.
Qed.

(** C3, amended. [chunkText] produces zero chunks for the empty text and
    only for it: any other text, white space included, gives at least one
    chunk. *)
Theorem chunkText_empty_iff (text fileName : jsstring) :
  chunkText text fileName = [] <-> text = [].
Proof.
  split; intros H.
  - apply length_zero_iff_nil.
    apply (f_equal (@List.length _)) in H. rewrite chunkText_length in H.
    change (List.length (@nil DocumentChunk)) with 0 in H.
    assert (Hle : ceilDiv (List.length text) CHUNK_SIZE <= 0) by lia.
    apply (ceilDiv_spec _ _ CHUNK_SIZE_pos) in Hle. lia.
  - subst text. reflexivity.
Qed.

(* ===================================================================== *)
(** * The chunker: the tabular loop and the entry point *)
(* ===================================================================== *)

Lemma processCSVLoop_step (fileName : jsstring) (headers dataRows : list jsstring)
  (i : nat) (chunks : list DocumentChunk) :
  processCSVLoop fileName headers dataRows i chunks =
  if lt_dec i (List.length dataRows) then
    processCSVLoop fileName headers dataRows (i + ROWS_PER_CHUNK)
      (chunks ++ [csvPiece fileName headers dataRows i chunks])
  else chunks.
Proof.
  rewrite processCSVLoop_equation_1.
  destruct (lt_dec i (List.length dataRows)); reflexivity.
Qed.

Lemma positionsContiguous_push (chunks : list DocumentChunk) (c : DocumentChunk) :
  positionsContiguous chunks -> index c = List.length chunks ->
  positionsContiguous (chunks ++ [c]).
Proof.
  unfold positionsContiguous. intros H Hc.
  rewrite map_app, length_app, H. simpl List.length.
  rewrite Nat.add_1_r, seq_S. simpl. now rewrite Hc.
Qed.

Lemma processCSVLoop_positions (fileName : jsstring)
  (headers dataRows : list jsstring) (i : nat) (chunks : list DocumentChunk) :
  positionsContiguous chunks ->
  positionsContiguous (processCSVLoop fileName headers dataRows i chunks).
Proof.
  remember (List.length dataRows - i) as m eqn:Hm.
  revert i chunks Hm.
  induction m as [m IH] using lt_wf_ind; intros i chunks Hm Hinv.
  rewrite processCSVLoop_step.
  destruct (lt_dec i (List.length dataRows)) as [Hlt|Hge]; trivial.
  apply (IH (List.length dataRows - (i + ROWS_PER_CHUNK))); trivial.
  - unfold ROWS_PER_CHUNK. lia.
  - now apply positionsContiguous_push.
Qed.

Lemma processCSV_positions (file : File) (chunks : list DocumentChunk) :
  processCSV file = Normal chunks -> positionsContiguous chunks.
Proof.
  unfold processCSV. destruct (nth_error (csvRows (text file)) 0); simpl.
  - intros [= <-]. now apply processCSVLoop_positions.
  - discriminate.
Qed.

Lemma processPDF_positions (pdfjsLoaded : bool) (file : File)
  (chunks : list DocumentChunk) :
  processPDF pdfjsLoaded file = Normal chunks -> positionsContiguous chunks.
Proof.
  unfold processPDF. destruct pdfjsLoaded; simpl; [|discriminate].
  destruct (pdfPages file); simpl; [|discriminate].
  intros [= <-]. apply chunkText_index.
Qed.

(** C8. The chunks of one invocation carry the positions 0, 1, ..., n-1 in
    output order: for the free-text variant [chunkText], for the tabular
    variant [processCSV], and so for whatever [processFile] returns. *)
Theorem positions_contiguous :
  (forall text fileName,
      map index (chunkText text fileName)
      = seq 0 (List.length (chunkText text fileName))) /\
  (forall file chunks,
      processCSV file = Normal chunks ->
      map index chunks = seq 0 (List.length chunks)) /\
  (forall pdfjsLoaded file chunks,
      processFile pdfjsLoaded file = Normal chunks ->
      map index chunks = seq 0 (List.length chunks)).
Proof.
  split; [exact chunkText_index|]. split; [exact processCSV_positions|].
  intros pdfjsLoaded file chunks. unfold processFile.
  destruct (isExtension (extension file) "pdf").
  - apply processPDF_positions.
  - destruct (isExtension (extension file) "csv").
    + apply processCSV_positions.
    + discriminate.
Qed.

(** Witness of C8: the 65 rows make three chunks, at positions 0, 1, 2. *)
Lemma positions_contiguous_witness :
  processCSV sampleTable = Normal sampleTableChunks /\
  processFile true sampleTable = Normal sampleTableChunks /\
  map index sampleTableChunks = [0; 1; 2].
Proof.
  split; [vm_compute; reflexivity|]. split; [vm_compute; reflexivity|].
  change [0; 1; 2] with (seq 0 (List.length sampleTableChunks)).
  apply (proj1 (proj2 positions_contiguous) sampleTable).
  vm_compute. reflexivity.
Defined.

(* ===================================================================== *)
(** * The chunker: blank input, short rows, unsupported files *)
(* ===================================================================== *)

Lemma trimStart_nil_iff (s : jsstring) : trimStart s = [] <-> blank s.
Proof.
  unfold blank. induction s as [|c s IH]; simpl.
  - split; [constructor | reflexivity].
  - destruct (isWhiteSpace c) eqn:Hc.
    + rewrite IH. split; [now constructor | now inversion 1].
    + split; [discriminate | inversion 1; congruence].
Qed.

Lemma trimStart_blank_nil (s : jsstring) : blank (trimStart s) -> trimStart s = [].
Proof.
  induction s as [|c s IH]; simpl; trivial.
  destruct (isWhiteSpace c) eqn:Hc; trivial.
  inversion 1; congruence.
Qed.

Lemma trim_nil_iff (s : jsstring) : trim s = [] <-> blank s.
Proof.
  unfold trim, trimEnd. split; intros H.
  - apply trimStart_nil_iff, trimStart_blank_nil.
    apply (f_equal (@rev _)) in H. rewrite rev_involutive in H. simpl in H.
    apply trimStart_nil_iff in H. unfold blank in *.
    apply Forall_rev in H. now rewrite rev_involutive in H.
  - apply trimStart_nil_iff in H. now rewrite H.
Qed.

Lemma split_nonempty (sep : ascii) (s : jsstring) : split sep s <> [].
Proof.
  destruct s as [|c s]; simpl; [discriminate|].
  destruct (Ascii.eqb c sep); [discriminate|].
  destruct (split sep s); discriminate.
Qed.

(** The pieces of a split hold the code units of the string that are not
    the separator, and nothing else. *)
Lemma split_pieces_blank (sep : ascii) (s : jsstring) :
  isWhiteSpace sep = true -> (Forall blank (split sep s) <-> blank s).
Proof.
  intros Hsep. unfold blank. induction s as [|c s IH]; simpl.
  - split; intros _; repeat constructor.
  - destruct (Ascii.eqb_spec c sep) as [->|Hne].
    + split; intros H; inversion H; subst; constructor; trivial;
        try constructor; now apply IH.
    + pose proof (split_nonempty sep s) as Hs.
      destruct (split sep s) as [|seg segs]; [congruence|].
      split; intros H.
      * inversion H as [|? ? Hseg Hsegs]; subst.
        inversion Hseg; subst. constructor; trivial.
        apply IH. now constructor.
      * inversion H as [|? ? Hc Hrest]; subst.
        apply IH in Hrest. inversion Hrest; subst.
        constructor; trivial. now constructor.
Qed.

Lemma csvRows_nil_iff (text : jsstring) : csvRows text = [] <-> blank text.
Proof.
  unfold csvRows.
  rewrite <- (split_pieces_blank (ascii_of_nat 10) text eq_refl).
  induction (split (ascii_of_nat 10) text) as [|seg segs IH]; simpl.
  - split; [constructor | reflexivity].
  - destruct (Nat.ltb_spec 0 (List.length (trim seg))) as [Hlen|Hlen].
    + split; [discriminate|]. inversion 1 as [|? ? Hseg _]; subst.
      apply trim_nil_iff in Hseg. rewrite Hseg in Hlen. simpl in Hlen. lia.
    + rewrite IH. assert (Hseg : blank seg).
      { apply trim_nil_iff, length_zero_iff_nil. lia. }
      split; [now constructor | now inversion 1].
Qed.

Lemma processCSV_throws_iff (file : File) :
  processCSV file = Throw TypeError <-> blank (text file).
Proof.
  rewrite <- csvRows_nil_iff. unfold processCSV.
  destruct (csvRows (text file)) as [|row0 rows]; simpl.
  - split; reflexivity.
  - split; discriminate.
Qed.

(** C10. On a tabular text without a non-blank line (the empty text, or
    white space and line breaks only) [processCSV] does not return zero
    chunks: once the blank lines are dropped the row list is empty, and
    reading the header row throws a TypeError. *)
Theorem processCSV_blank_throws (file : File) :
  blank (text file) ->
  csvRows (text file) = [] /\
  processCSV file = Throw TypeError /\
  processCSV file <> Normal [].
Proof.
  intros H.
  assert (E : processCSV file = Throw TypeError)
    by now apply processCSV_throws_iff.
  split; [now apply csvRows_nil_iff|]. split; [exact E|].
  rewrite E. discriminate.
Qed.

(** Witness of C10, on two lines of spaces. *)
Lemma processCSV_blank_throws_witness :
  blank (text blankTable) /\
  csvRows (text blankTable) = [] /\
  processCSV blankTable = Throw TypeError /\
  processCSV blankTable <> Normal [].
Proof.
  assert (H : blank (text blankTable)) by (repeat constructor).
  split; [exact H|].
  exact (processCSV_blank_throws blankTable H).
Defined.

(** The empty text is the smallest case. *)
Example processCSV_empty_text :
  processCSV (mkFile "empty.csv" [] (Throw TypeError)) = Throw TypeError.
Proof. reflexivity. Qed.

(** C4 fails on the code: the field that the row lacks is rendered as the
    word undefined, not as the empty string. *)
Theorem processCSV_short_row_renders_undefined :
  processCSV shortRowTable =
  Normal [ {| fileName := lit "people.csv";
              content := lit "[CSV Header: name, age]" ++ newline
                         ++ lit "name: Bob | age: undefined";
              index := 0 |} ]
  /\ formatRow (map lit ["name"; "age"]%string) "Bob"
     <> lit "name: Bob | age: ".
Proof. split; [vm_compute; reflexivity | vm_compute; discriminate]. Qed.

(** Any field past the end of the row is rendered so. *)
Lemma missing_field_rendered (row : jsstring) (idx : nat) :
  List.length (split ","%char row) <= idx ->
  templateValue (option_map trim (nth_error (split ","%char row) idx))
  = lit "undefined".
Proof.
  intros H. apply nth_error_None in H. now rewrite H.
Qed.

Lemma eqString_true_iff (a b : jsstring) : eqString a b = true <-> a = b.
Proof.
  unfold eqString. destruct (list_eq_dec ascii_dec a b); split;
    congruence || discriminate.
Qed.

(** C9 as stated fails: the message thrown for notes.txt does not name the
    kind txt. *)
Lemma processFile_message_counterexample :
  extension notesTxt = Some (lit "txt") /\
  processFile true notesTxt = Throw (Error unsupportedMessage) /\
  includes unsupportedMessage "txt" = false /\
  includes (toLowerCase unsupportedMessage) "txt" = false.
Proof. repeat split; vm_compute; reflexivity. Qed.

(** C9, amended. A file whose extension, lower-cased, is neither pdf nor
    csv makes [processFile] throw an Error with one fixed message, which
    names the two supported kinds and not the offending one; no chunk is
    returned. *)
Theorem processFile_unsupported (pdfjsLoaded : bool) (file : File) :
  extension file <> Some (lit "pdf") ->
  extension file <> Some (lit "csv") ->
  processFile pdfjsLoaded file
  = Throw (Error (lit "Unsupported file type. Please upload PDF or CSV."))
  /\ forall chunks, processFile pdfjsLoaded file <> Normal chunks.
Proof.
  intros Hpdf Hcsv.
  assert (E : processFile pdfjsLoaded file
              = Throw (Error (lit "Unsupported file type. Please upload PDF or CSV."))).
  { unfold processFile, isExtension.
    destruct (extension file) as [e|]; trivial.
    destruct (eqString e "pdf") eqn:E1.
    { apply eqString_true_iff in E1. congruence. }
    destruct (eqString e "csv") eqn:E2.
    { apply eqString_true_iff in E2. congruence. }
    reflexivity. }
  split; [exact E|]. intros chunks. rewrite E. discriminate.
Qed.

Lemma processFile_unsupported_witness :
  extension notesTxt <> Some (lit "pdf") /\
  extension notesTxt <> Some (lit "csv") /\
  processFile true notesTxt
  = Throw (Error (lit "Unsupported file type. Please upload PDF or CSV.")).
Proof.
  assert (H1 : extension notesTxt <> Some (lit "pdf")) by (vm_compute; discriminate).
  assert (H2 : extension notesTxt <> Some (lit "csv")) by (vm_compute; discriminate).
  split; [exact H1|]. split; [exact H2|].
  exact (proj1 (processFile_unsupported true notesTxt H1 H2)).
Defined.

(* ===================================================================== *)
(** * Sorting by a key, descending *)
(* ===================================================================== *)

Section SortByKey.
Variable A : Type.
Variable key : A -> Z.

Lemma insert_hasKey (s : Z) (x : A) (l : list A) :
  filter (hasKey key s) (insert (keyDescending key) x l)
  = if hasKey key s x then x :: filter (hasKey key s) l
    else filter (hasKey key s) l.
Proof.
  induction l as [|y l IH]; simpl.
  - reflexivity.
  - unfold keyDescending at 1.
    destruct (Z.leb_spec (key y - key x) 0) as [Hle|Hgt]; simpl.
    + reflexivity.
    + rewrite IH. unfold hasKey.
      destruct (Z.eqb_spec (key x) s), (Z.eqb_spec (key y) s);
        trivial; lia.
Qed.

(** Stability: the elements of any one key keep their order. *)
Lemma sort_hasKey (s : Z) (l : list A) :
  filter (hasKey key s) (sort (keyDescending key) l) = filter (hasKey key s) l.
Proof.
  induction l as [|x l IH]; simpl.
  - reflexivity.
  - change (fold_right (insert (keyDescending key)) [] l)
      with (sort (keyDescending key) l).
    rewrite insert_hasKey, IH. reflexivity.
Qed.

Lemma insert_Forall (P : A -> Prop) (x : A) (l : list A) :
  P x -> Forall P l -> Forall P (insert (keyDescending key) x l).
Proof.
  intros Hx. induction 1 as [|y l Hy Hl IH]; simpl.
  - now constructor.
  - destruct ((keyDescending key) x y <=? 0)%Z; repeat constructor; trivial.
Qed.

Lemma sort_Forall (P : A -> Prop) (l : list A) :
  Forall P l -> Forall P (sort (keyDescending key) l).
Proof.
  induction 1 as [|x l Hx Hl IH]; simpl.
  - constructor.
  - now apply insert_Forall.
Qed.

Lemma insert_descending (x : A) (l : list A) :
  StronglySorted (notBelow key) l ->
  StronglySorted (notBelow key) (insert (keyDescending key) x l).
Proof.
  induction 1 as [|y l Hl IH Hy]; simpl.
  - repeat constructor.
  - unfold keyDescending at 1.
    destruct (Z.leb_spec (key y - key x) 0) as [Hle|Hgt].
    + constructor; [now constructor|].
      constructor; [unfold notBelow; lia|].
      eapply Forall_impl; [|exact Hy].
      unfold notBelow. intros z Hz. lia.
    + constructor; trivial.
      apply insert_Forall; trivial. unfold notBelow. lia.
Qed.

(** The result is ordered by key, highest first. *)
Lemma sort_descending (l : list A) :
  StronglySorted (notBelow key) (sort (keyDescending key) l).
Proof.
  induction l as [|x l IH]; simpl.
  - constructor.
  - now apply insert_descending.
Qed.
Lemma hasKey_head (s : Z) (x : A) (l : list A) :
  filter (hasKey key s) (x :: l)
  = if (key x =? s)%Z then x :: filter (hasKey key s) l
    else filter (hasKey key s) l.
Proof. reflexivity. Qed.

(** Two lists in descending order of key that agree on the elements of
    each key, taken in order, are the same list. *)
Lemma descending_stable_unique (l1 l2 : list A) :
  StronglySorted (notBelow key) l1 ->
  StronglySorted (notBelow key) l2 ->
  (forall s, filter (hasKey key s) l1 = filter (hasKey key s) l2) ->
  l1 = l2.
Proof.
  intros H1. revert l2.
  induction H1 as [|x l1 Hs1 IH Hx]; intros l2 H2 Hf.
  - destruct l2 as [|y l2]; trivial.
    specialize (Hf (key y)). rewrite hasKey_head, Z.eqb_refl in Hf.
    discriminate.
  - destruct l2 as [|y l2].
    { specialize (Hf (key x)). rewrite hasKey_head, Z.eqb_refl in Hf.
      discriminate. }
    inversion H2 as [|? ? Hs2 Hy]; subst.
    assert (Hxy : key x = key y).
    { destruct (Z.eq_dec (key x) (key y)) as [|Hne]; trivial.
      pose proof (Hf (key x)) as Fx. pose proof (Hf (key y)) as Fy.
      rewrite !hasKey_head, Z.eqb_refl in Fx, Fy.
      destruct (Z.eqb_spec (key y) (key x)); [congruence|].
      destruct (Z.eqb_spec (key x) (key y)); [congruence|].
      assert (Ix : In x l2).
      { eapply (proj1 (filter_In _ _ _)). rewrite <- Fx. now left. }
      assert (Iy : In y l1).
      { eapply (proj1 (filter_In _ _ _)). rewrite Fy. now left. }
      rewrite Forall_forall in Hx, Hy.
      apply Hx in Iy. apply Hy in Ix. unfold notBelow in *. lia. }
    assert (Hhead : x = y /\ forall s,
               filter (hasKey key s) l1 = filter (hasKey key s) l2).
    { split.
      - specialize (Hf (key x)). rewrite !hasKey_head in Hf.
        rewrite <- Hxy, Z.eqb_refl in Hf. congruence.
      - intros s. specialize (Hf s). rewrite !hasKey_head in Hf.
        rewrite <- Hxy in Hf. destruct (key x =? s)%Z; congruence. }
    destruct Hhead as [-> Htail]. f_equal. now apply IH.
Qed.

(** So the order that a stable sort by this comparator produces is fixed
    by the language, whatever algorithm the engine runs. *)
Lemma sort_unique (l sorted : list A) :
  StronglySorted (notBelow key) sorted ->
  (forall s, filter (hasKey key s) sorted = filter (hasKey key s) l) ->
  sorted = sort (keyDescending key) l.
Proof.
  intros Hs Hf. apply descending_stable_unique; trivial.
  - apply sort_descending.
  - intros s. now rewrite sort_hasKey.
Qed.
End SortByKey.

Section ListTransport.
Variables A B : Type.
Variable g : A -> B.

Lemma insert_map (cmp : B -> B -> Z) (x : A) (l : list A) :
  insert cmp (g x) (map g l)
  = map g (insert (fun a b => cmp (g a) (g b)) x l).
Proof.
  induction l as [|y l IH]; simpl.
  - reflexivity.
  - destruct (cmp (g x) (g y) <=? 0)%Z; simpl; [reflexivity|].
    now rewrite IH.
Qed.

Lemma sort_map (cmp : B -> B -> Z) (l : list A) :
  sort cmp (map g l) = map g (sort (fun a b => cmp (g a) (g b)) l).
Proof.
  induction l as [|x l IH]; simpl.
  - reflexivity.
  - change (fold_right (insert cmp) [] (map g l)) with (sort cmp (map g l)).
    rewrite IH. apply insert_map.
Qed.

Lemma filter_map_comm (p : B -> bool) (l : list A) :
  filter p (map g l) = map g (filter (fun a => p (g a)) l).
Proof.
  induction l as [|x l IH]; simpl.
  - reflexivity.
  - destruct (p (g x)); simpl; now rewrite IH.
Qed.

Lemma slice_map (l : list A) (start stop : Z) :
  slice (map g l) start stop = map g (slice l start stop).
Proof.
  unfold slice. now rewrite length_map, skipn_map, firstn_map.
Qed.
End ListTransport.

Section Prefixes.
Variable A : Type.

Lemma filter_firstn (p : A -> bool) (n : nat) (l : list A) :
  exists m, filter p (firstn n l) = firstn m (filter p l).
Proof.
  revert l. induction n as [|n IH]; intros l.
  - exists 0. reflexivity.
  - destruct l as [|x l]; simpl.
    + exists 0. reflexivity.
    + destruct (IH l) as [m Hm]. destruct (p x).
      * exists (S m). simpl. now rewrite Hm.
      * exists m. exact Hm.
Qed.

Lemma StronglySorted_firstn (R : A -> A -> Prop) (n : nat) (l : list A) :
  StronglySorted R l -> StronglySorted R (firstn n l).
Proof.
  intros H. revert n. induction H as [|x l Hl IH Hx]; intros n.
  - rewrite firstn_nil. constructor.
  - destruct n as [|n]; simpl; constructor.
    + apply IH.
    + apply Forall_forall. intros y Hy.
      assert (Hin : In y l).
      { rewrite <- (firstn_skipn n l). apply in_or_app. now left. }
      clear Hy. revert y Hin. now apply Forall_forall.
Qed.

Lemma StronglySorted_filter (R : A -> A -> Prop) (p : A -> bool) (l : list A) :
  StronglySorted R l -> StronglySorted R (filter p l).
Proof.
  induction 1 as [|x l Hl IH Hx]; simpl.
  - constructor.
  - destruct (p x); trivial. constructor; trivial.
    apply Forall_forall. intros y Hy. apply filter_In in Hy as [Hy _].
    revert y Hy. now apply Forall_forall.
Qed.
End Prefixes.

Lemma seq_increasing (a n : nat) : StronglySorted lt (seq a n).
Proof.
  revert a. induction n as [|n IH]; intros a; simpl; constructor.
  - apply IH.
  - apply Forall_forall. intros y Hy. apply in_seq in Hy. lia.
Qed.

Lemma sort_constant_key (A : Type) (key : A -> Z) (l : list A) :
  (forall x y, key x = key y) -> sort (keyDescending key) l = l.
Proof.
  intros Hkey. induction l as [|x l IH]; simpl.
  - reflexivity.
  - change (fold_right (insert (keyDescending key)) [] l)
      with (sort (keyDescending key) l).
    rewrite IH. destruct l as [|y l]; simpl; trivial.
    unfold keyDescending. rewrite (Hkey y x), Z.sub_diag. reflexivity.
Qed.

Lemma filter_key_positive (A : Type) (key : A -> Z) (s : Z) (l : list A) :
  (0 < s)%Z ->
  filter (hasKey key s) (filter (fun x => (0 <? key x)%Z) l)
  = filter (hasKey key s) l.
Proof.
  intros Hs. unfold hasKey. induction l as [|x l IH]; simpl.
  - reflexivity.
  - destruct (Z.ltb_spec 0 (key x)); simpl; rewrite IH; trivial.
    destruct (Z.eqb_spec (key x) s); trivial. lia.
Qed.

Lemma filter_key_not_positive (A : Type) (key : A -> Z) (s : Z) (l : list A) :
  (s <= 0)%Z ->
  filter (hasKey key s) (filter (fun x => (0 <? key x)%Z) l) = [].
Proof.
  intros Hs. unfold hasKey. induction l as [|x l IH]; simpl.
  - reflexivity.
  - destruct (Z.ltb_spec 0 (key x)); simpl; trivial.
    destruct (Z.eqb_spec (key x) s); trivial. lia.
Qed.

Lemma map_nth_seq (A : Type) (d : A) (l : list A) :
  map (fun i => nth i l d) (seq 0 (List.length l)) = l.
Proof.
  induction l as [|x l IH]; simpl.
  - reflexivity.
  - rewrite <- seq_shift, map_map. simpl. now rewrite IH.
Qed.

(* ===================================================================== *)
(** * The retriever *)
(* ===================================================================== *)

(** [relevant] without the detour through the scored pairs. *)
Lemma relevantOf_closed (query : jsstring) (chunks : list DocumentChunk)
  (limit : Z) :
  relevantOf query chunks limit
  = slice (sort (keyDescending (scoreOf query))
             (filter (fun c => (0 <? scoreOf query c)%Z) chunks))
          0 (boundOf query limit).
Proof.
  unfold relevantOf, scoredChunksOf, boundOf.
  rewrite filter_map_comm, sort_map, slice_map, map_map.
  apply map_id.
Qed.

Lemma relevantOf_positions (query : jsstring) (chunks : list DocumentChunk)
  (limit : Z) :
  relevantOf query chunks limit
  = map (fun i => nth i chunks noChunk) (relevantPositions query chunks limit).
Proof.
  rewrite relevantOf_closed. unfold relevantPositions.
  set (at_ := fun i => nth i chunks noChunk).
  transitivity
    (slice (sort (keyDescending (scoreOf query))
              (filter (fun c => (0 <? scoreOf query c)%Z)
                      (map at_ (seq 0 (List.length chunks)))))
           0 (boundOf query limit)).
  - unfold at_. now rewrite map_nth_seq.
  - rewrite filter_map_comm, sort_map, slice_map. reflexivity.
Qed.

Lemma relevantPositions_in_range (query : jsstring)
  (chunks : list DocumentChunk) (limit : Z) :
  Forall (fun i => i < List.length chunks) (relevantPositions query chunks limit).
Proof.
  unfold relevantPositions.
  destruct (slice_prefix
              (sort (keyDescending (scoreAt query chunks))
                 (filter (fun i => (0 <? scoreAt query chunks i)%Z)
                         (seq 0 (List.length chunks))))
              (boundOf query limit)) as [n ->].
  apply Forall_forall. intros i Hi.
  assert (Hin : In i (sort (keyDescending (scoreAt query chunks))
                        (filter (fun i => (0 <? scoreAt query chunks i)%Z)
                                (seq 0 (List.length chunks))))).
  { rewrite <- (firstn_skipn n). apply in_or_app. now left. }
  clear Hi. revert i Hin. apply Forall_forall, sort_Forall.
  apply Forall_forall. intros i Hi. apply filter_In in Hi as [Hi _].
  apply in_seq in Hi. lia.
Qed.

Lemma relevantPositions_stable (query : jsstring)
  (chunks : list DocumentChunk) (limit : Z) (s : Z) :
  StronglySorted lt
    (filter (hasKey (scoreAt query chunks) s)
            (relevantPositions query chunks limit)).
Proof.
  unfold relevantPositions.
  destruct (slice_prefix
              (sort (keyDescending (scoreAt query chunks))
                 (filter (fun i => (0 <? scoreAt query chunks i)%Z)
                         (seq 0 (List.length chunks))))
              (boundOf query limit)) as [n ->].
  destruct (filter_firstn (hasKey (scoreAt query chunks) s) n
              (sort (keyDescending (scoreAt query chunks))
                 (filter (fun i => (0 <? scoreAt query chunks i)%Z)
                         (seq 0 (List.length chunks))))) as [m ->].
  rewrite sort_hasKey.
  apply StronglySorted_firstn, StronglySorted_filter, StronglySorted_filter.
  apply seq_increasing.
Qed.

Lemma relevantOf_descending (query : jsstring) (chunks : list DocumentChunk)
  (limit : Z) :
  StronglySorted (notBelow (scoreOf query)) (relevantOf query chunks limit).
Proof.
  rewrite relevantOf_closed.
  destruct (slice_prefix
              (sort (keyDescending (scoreOf query))
                 (filter (fun c => (0 <? scoreOf query c)%Z) chunks))
              (boundOf query limit)) as [n ->].
  apply StronglySorted_firstn, sort_descending.
Qed.

Lemma relevantOf_equal_scores (query : jsstring) (chunks : list DocumentChunk)
  (limit : Z) (s : Z) :
  exists n,
    filter (hasKey (scoreOf query) s) (relevantOf query chunks limit)
    = firstn n (filter (hasKey (scoreOf query) s) chunks).
Proof.
  rewrite relevantOf_closed.
  destruct (slice_prefix
              (sort (keyDescending (scoreOf query))
                 (filter (fun c => (0 <? scoreOf query c)%Z) chunks))
              (boundOf query limit)) as [n ->].
  destruct (filter_firstn (hasKey (scoreOf query) s) n
              (sort (keyDescending (scoreOf query))
                 (filter (fun c => (0 <? scoreOf query c)%Z) chunks))) as [m ->].
  rewrite sort_hasKey.
  destruct (Z.ltb_spec 0 s) as [Hs|Hs].
  - exists m. now rewrite filter_key_positive.
  - exists 0. rewrite filter_key_not_positive by exact Hs.
    now rewrite firstn_nil.
Qed.

(** The three ways out of [findRelevantChunks], told apart by the line
    each writes to the console. *)
Lemma findRelevantChunks_paths (query : jsstring) (chunks : list DocumentChunk)
  (limit : Z) :
  findRelevantChunks query chunks limit = (chunks, [aggregationLine])
  \/ (exists k, findRelevantChunks query chunks limit
                = (slice chunks 0 k, [fallbackLine]))
  \/ findRelevantChunks query chunks limit = (relevantOf query chunks limit, []).
Proof.
  unfold findRelevantChunks.
  destruct (isAggregationOf query && (List.length chunks <? 50)); [now left|].
  right.
  destruct ((List.length (relevantOf query chunks limit) =? 0)
            && (0 <? List.length chunks)); [left; eauto | now right].
Qed.

Lemma findRelevantChunks_silent (query : jsstring) (chunks : list DocumentChunk)
  (limit : Z) :
  snd (findRelevantChunks query chunks limit) = [] ->
  fst (findRelevantChunks query chunks limit) = relevantOf query chunks limit.
Proof.
  destruct (findRelevantChunks_paths query chunks limit) as [E|[[k E]|E]];
    rewrite E; simpl; trivial; discriminate.
Qed.

(** C6. When the lower-cased query contains one of the aggregation keywords
    and the collection has fewer than 50 chunks, the collection comes back
    whole and in order, through the short-circuit: the only line written is
    the one of that path, no chunk is scored. *)
Theorem findRelevantChunks_small_corpus (query : jsstring)
  (chunks : list DocumentChunk) (limit : Z) :
  (exists keyword,
      In keyword (map lit ["total"; "count"; "sum"; "average"; "summary";
                           "report"; "analyze"; "overview"; "all"]%string)
      /\ includes (toLowerCase query) keyword = true) ->
  List.length chunks < 50 ->
  findRelevantChunks query chunks limit
  = (chunks,
     [lit "Aggregation detected for small dataset. Returning all chunks."]).
Proof.
  intros Hkw Hlen. unfold findRelevantChunks.
  assert (Hagg : isAggregationOf query = true).
  { unfold isAggregationOf. apply existsb_exists. exact Hkw. }
  rewrite Hagg. apply Nat.ltb_lt in Hlen. rewrite Hlen. reflexivity.
Qed.

(** Witness of C6, scenario B of the specification. *)
Lemma findRelevantChunks_small_corpus_witness :
  includes (toLowerCase "give me a summary of everything") "summary" = true /\
  List.length tenChunks < 50 /\
  findRelevantChunks "give me a summary of everything" tenChunks DEFAULT_LIMIT
  = (tenChunks,
     [lit "Aggregation detected for small dataset. Returning all chunks."]).
Proof.
  split; [reflexivity|]. split; [simpl; lia|].
  apply (findRelevantChunks_small_corpus
           (lit "give me a summary of everything") tenChunks DEFAULT_LIMIT).
  - exists (lit "summary"). split; [simpl; tauto | reflexivity].
  - simpl; lia.
Defined.

Lemma includes_empty (s : jsstring) : includes s [] = true.
Proof. destruct s; reflexivity. Qed.

Lemma scoreOf_empty_query (c : DocumentChunk) : scoreOf [] c = 10%Z.
Proof.
  unfold scoreOf, scoreChunk. simpl. now rewrite includes_empty.
Qed.

(** C1 as stated fails: under the empty query the six chunks do not score
    zero, and what comes back is not the fallback of the first five. *)
Lemma findRelevantChunks_empty_query_counterexample :
  sixChunks <> [] /\
  map score (scoredChunksOf [] sixChunks) <> map (fun _ => 0%Z) sixChunks /\
  findRelevantChunks [] sixChunks DEFAULT_LIMIT = (sixChunks, []) /\
  fst (findRelevantChunks [] sixChunks DEFAULT_LIMIT) <> firstn 5 sixChunks.
Proof.
  split; [discriminate|]. split; [vm_compute; discriminate|].
  split; [vm_compute; reflexivity | vm_compute; discriminate].
Qed.

(** C1, amended. For every non-empty collection the empty query yields an
    empty term set and the score 10 for every chunk: every content contains
    the empty string, so the exact-phrase bonus applies. No score is zero,
    the fallback is not taken and nothing is written to the console: the
    scored selection comes back, which is the first [limit] chunks of the
    collection in original order, for a limit above zero; the first 30 with
    the default limit. *)
Theorem findRelevantChunks_empty_query (chunks : list DocumentChunk)
  (limit : Z) :
  chunks <> [] ->
  (0 < limit)%Z ->
  queryTermsOf [] = [] /\
  map score (scoredChunksOf [] chunks) = map (fun _ => 10%Z) chunks /\
  findRelevantChunks [] chunks limit = (firstn (Z.to_nat limit) chunks, []) /\
  findRelevantChunks [] chunks DEFAULT_LIMIT = (firstn 30 chunks, []).
Proof.
  intros Hne Hlimit.
  assert (Hrel : forall k, (0 < k)%Z ->
             findRelevantChunks [] chunks k = (firstn (Z.to_nat k) chunks, [])).
  { intros k Hk.
    assert (Hcut : relevantOf [] chunks k = firstn (Z.to_nat k) chunks).
    { rewrite relevantOf_closed.
      rewrite (filter_ext _ (fun _ => true))
        by (intros c; now rewrite scoreOf_empty_query).
      rewrite sort_constant_key
        by (intros x y; now rewrite !scoreOf_empty_query).
      assert (Hall : forall l : list DocumentChunk, filter (fun _ => true) l = l)
        by (induction l; simpl; congruence).
      rewrite Hall.
      change (boundOf [] k) with k.
      rewrite <- (Z2Nat.id k) at 1 by lia.
      change 0%Z with (Z.of_nat 0).
      rewrite slice_nonneg. now rewrite Nat.sub_0_r. }
    unfold findRelevantChunks.
    change (isAggregationOf []) with false. cbn [andb].
    rewrite Hcut. destruct chunks as [|c chunks]; [congruence|].
    destruct (Z.to_nat k) as [|n] eqn:Hn; [lia|]. reflexivity. }
  split; [reflexivity|]. split.
  - unfold scoredChunksOf. rewrite map_map. apply map_ext.
    intros c. apply scoreOf_empty_query.
  - split; [now apply Hrel|]. apply (Hrel DEFAULT_LIMIT). reflexivity.
Qed.

(** Witness of C1, amended: six chunks and the default limit. *)
Lemma findRelevantChunks_empty_query_witness :
  sixChunks <> [] /\
  (0 < DEFAULT_LIMIT)%Z /\
  map score (scoredChunksOf [] sixChunks) = [10; 10; 10; 10; 10; 10]%Z /\
  findRelevantChunks [] sixChunks DEFAULT_LIMIT = (firstn 30 sixChunks, []).
Proof.
  assert (Hne : sixChunks <> []) by discriminate.
  assert (Hl : (0 < DEFAULT_LIMIT)%Z) by reflexivity.
  split; [exact Hne|]. split; [exact Hl|].
  destruct (@findRelevantChunks_empty_query sixChunks DEFAULT_LIMIT Hne Hl)
    as [_ [Hscores [_ Hsel]]].
  split; [exact Hscores | exact Hsel].
Defined.

(** C2 as stated fails: the scores are not 1, 0, 1. *)
Lemma scenario_C_scores_counterexample :
  map score (scoredChunksOf "apple" fruitChunks) <> [1; 0; 1]%Z.
Proof. vm_compute. discriminate. Qed.

(** C2, amended. On the contents apple banana, banana cherry, apple apple
    cherry and the query apple the scores are 11, 0, 11: a chunk that holds
    the word gets the exact-phrase bonus of 10 and 1 for the term, however
    often the word occurs in it. The chunk scoring 0 is left out, the two
    others come back in their original order. *)
Theorem scenario_C_scores (f0 f1 f2 : jsstring) (i0 i1 i2 : nat) :
  let chunks := [ mkChunk f0 "apple banana" i0;
                  mkChunk f1 "banana cherry" i1;
                  mkChunk f2 "apple apple cherry" i2 ] in
  map score (scoredChunksOf "apple" chunks) = [11; 0; 11]%Z /\
  findRelevantChunks "apple" chunks DEFAULT_LIMIT
  = ([ mkChunk f0 "apple banana" i0; mkChunk f2 "apple apple cherry" i2 ], []).
Proof. split; vm_compute; reflexivity. Qed.

(** C7. On the scoring path (neither the short-circuit nor the fallback, so
    nothing is written to the console) the returned chunks are in descending
    order of score, and chunks of equal score keep the order they had in the
    collection: for each score, the returned chunks of that score are an
    initial part of the collection's chunks of that score; and the positions
    in the collection of the returned chunks increase along the output
    within each score. *)
Theorem findRelevantChunks_stable (query : jsstring)
  (chunks : list DocumentChunk) (limit : Z) :
  snd (findRelevantChunks query chunks limit) = [] ->
  let out := fst (findRelevantChunks query chunks limit) in
  StronglySorted (fun a b => (scoreOf query b <= scoreOf query a)%Z) out /\
  (forall s, exists n,
      filter (fun c => (scoreOf query c =? s)%Z) out
      = firstn n (filter (fun c => (scoreOf query c =? s)%Z) chunks)) /\
  (exists positions,
      out = map (fun i => nth i chunks noChunk) positions /\
      Forall (fun i => i < List.length chunks) positions /\
      forall s,
        StronglySorted lt
          (filter (fun i => (scoreOf query (nth i chunks noChunk) =? s)%Z)
                  positions)).
Proof.
  intros Hlog out. unfold out.
  rewrite (findRelevantChunks_silent _ _ _ Hlog).
  split; [apply relevantOf_descending|].
  split; [intros s; apply relevantOf_equal_scores|].
  exists (relevantPositions query chunks limit).
  split; [apply relevantOf_positions|].
  split; [apply relevantPositions_in_range|].
  intros s. apply relevantPositions_stable.
Qed.

(** Witness of C7: the chunks at positions 0, 3, 4 tie on 2, and stay in
    that order ahead of the chunk at position 2. *)
Lemma findRelevantChunks_stable_witness :
  snd (findRelevantChunks "tax / rate" taxChunks DEFAULT_LIMIT) = [] /\
  map index (fst (findRelevantChunks "tax / rate" taxChunks DEFAULT_LIMIT))
  = [0; 3; 4; 2] /\
  forall s, exists n,
    filter (fun c => (scoreOf "tax / rate" c =? s)%Z)
           (fst (findRelevantChunks "tax / rate" taxChunks DEFAULT_LIMIT))
    = firstn n (filter (fun c => (scoreOf "tax / rate" c =? s)%Z) taxChunks).
Proof.
  split; [reflexivity|]. split; [reflexivity|].
  apply (findRelevantChunks_stable (lit "tax / rate") taxChunks DEFAULT_LIMIT).
  reflexivity.
Defined.

(* ===================================================================== *)
(** * The retriever: what is returned, and how much *)
(* ===================================================================== *)

Lemma slice_nil (A : Type) (start stop : Z) : slice (@nil A) start stop = [].
Proof. unfold slice. now rewrite skipn_nil, firstn_nil. Qed.

Lemma slice_zero_length (A : Type) (l : list A) (stop : Z) :
  (0 <= stop)%Z -> List.length (slice l 0 stop) <= Z.to_nat stop.
Proof.
  intros Hs. unfold slice, relIndex. change (0 <? 0)%Z with false. cbv iota.
  destruct (Z.ltb_spec stop 0); [lia|].
  rewrite length_firstn. lia.
Qed.

Lemma slice_zero_firstn (A : Type) (l : list A) (k : nat) :
  slice l 0 (Z.of_nat k) = firstn k l.
Proof.
  change 0%Z with (Z.of_nat 0). rewrite slice_nonneg.
  now rewrite Nat.sub_0_r.
Qed.

Lemma slice_zero_all (A : Type) (l : list A) (stop : Z) :
  (Z.of_nat (List.length l) <= stop)%Z -> slice l 0 stop = l.
Proof.
  intros Hs. unfold slice, relIndex. change (0 <? 0)%Z with false. cbv iota.
  destruct (Z.ltb_spec stop 0); [lia|].
  rewrite Z.min_r by exact Hs. rewrite Z.min_l by lia.
  simpl. rewrite Z.sub_0_r, Nat2Z.id. apply firstn_all.
Qed.

Lemma insert_permutation (A : Type) (cmp : A -> A -> Z) (x : A) (l : list A) :
  Permutation (insert cmp x l) (x :: l).
Proof.
  induction l as [|y l IH]; simpl.
  - reflexivity.
  - destruct (cmp x y <=? 0)%Z; [reflexivity|].
    rewrite IH. apply perm_swap.
Qed.

Lemma sort_permutation (A : Type) (cmp : A -> A -> Z) (l : list A) :
  Permutation (sort cmp l) l.
Proof.
  induction l as [|x l IH]; simpl.
  - reflexivity.
  - change (fold_right (insert cmp) [] l) with (sort cmp l).
    rewrite insert_permutation. now constructor.
Qed.

Lemma NoDup_firstn (A : Type) (n : nat) (l : list A) :
  NoDup l -> NoDup (firstn n l).
Proof.
  intros H. rewrite <- (firstn_skipn n l) in H.
  now apply NoDup_app_remove_r in H.
Qed.

Lemma In_firstn (A : Type) (n : nat) (l : list A) (x : A) :
  In x (firstn n l) -> In x l.
Proof.
  intros H. rewrite <- (firstn_skipn n l). apply in_or_app. now left.
Qed.

Lemma StronglySorted_app_inv (A : Type) (R : A -> A -> Prop) (l1 l2 : list A) :
  StronglySorted R (l1 ++ l2) ->
  forall a b, In a l1 -> In b l2 -> R a b.
Proof.
  induction l1 as [|x l1 IH]; simpl; intros H a b Ha Hb; [contradiction|].
  inversion H as [|? ? Hs Hx]; subst.
  destruct Ha as [->|Ha].
  - rewrite Forall_forall in Hx. apply Hx, in_or_app. now right.
  - now apply IH.
Qed.

Lemma relevantOf_nil (query : jsstring) (limit : Z) :
  relevantOf query [] limit = [].
Proof. rewrite relevantOf_closed. simpl. apply slice_nil. Qed.

(** The chunks that score above zero, best first: what [relevant] is cut
    from. *)
Lemma relevantOf_cut (query : jsstring) (chunks : list DocumentChunk)
  (limit : Z) :
  exists n,
    relevantOf query chunks limit
    = firstn n (sort (keyDescending (scoreOf query))
                  (filter (fun c => (0 <? scoreOf query c)%Z) chunks)).
Proof. rewrite relevantOf_closed. apply slice_prefix. Qed.

Lemma findRelevantChunks_nil_iff (query : jsstring)
  (chunks : list DocumentChunk) (limit : Z) :
  fst (findRelevantChunks query chunks limit) = [] <-> chunks = [].
Proof.
  unfold findRelevantChunks.
  destruct (isAggregationOf query && (List.length chunks <? 50));
    [reflexivity|].
  destruct chunks as [|c chunks].
  - rewrite relevantOf_nil. simpl. tauto.
  - destruct (relevantOf query (c :: chunks) limit) as [|r rel] eqn:Hrel.
    + simpl. destruct (isAggregationOf query).
      * change 20%Z with (Z.of_nat 20). rewrite slice_zero_firstn.
        simpl. split; discriminate.
      * change 5%Z with (Z.of_nat 5). rewrite slice_zero_firstn.
        simpl. split; discriminate.
    + simpl. split; discriminate.
Qed.

Lemma findRelevantChunks_In (query : jsstring) (chunks : list DocumentChunk)
  (limit : Z) (c : DocumentChunk) :
  In c (fst (findRelevantChunks query chunks limit)) -> In c chunks.
Proof.
  destruct (findRelevantChunks_paths query chunks limit) as [E|[[k E]|E]];
    rewrite E; simpl; trivial.
  - destruct (slice_prefix chunks k) as [n ->]. apply In_firstn.
  - destruct (relevantOf_cut query chunks limit) as [n ->]. intros Hc.
    apply In_firstn in Hc.
    apply (Permutation_in _ (sort_permutation _ _)) in Hc.
    now apply filter_In in Hc.
Qed.

(** X1. A non-empty collection always yields a non-empty selection, an
    empty collection an empty one, whatever the query and the limit. *)
Theorem findRelevantChunks_empty_iff (query : jsstring)
  (chunks : list DocumentChunk) (limit : Z) :
  fst (findRelevantChunks query chunks limit) = [] <-> chunks = [].
Proof.
  split.
  - intros Hnone. destruct chunks as [|c chunks]; trivial. exfalso.
    destruct (findRelevantChunks_paths query (c :: chunks) limit)
      as [E|[[k E]|E]]; rewrite E in Hnone; simpl in Hnone.
    + discriminate.
    + unfold findRelevantChunks in E.
      destruct (isAggregationOf query && (List.length (c :: chunks) <? 50));
        [discriminate|].
      destruct ((List.length (relevantOf query (c :: chunks) limit) =? 0)
                && (0 <? List.length (c :: chunks))); [|discriminate].
      injection E as E. rewrite Hnone in E.
      destruct (isAggregationOf query).
      * change 20%Z with (Z.of_nat 20) in E.
        rewrite slice_zero_firstn in E. discriminate.
      * change 5%Z with (Z.of_nat 5) in E.
        rewrite slice_zero_firstn in E. discriminate.
    + unfold findRelevantChunks in E.
      destruct (isAggregationOf query && (List.length (c :: chunks) <? 50));
        [discriminate|].
      rewrite Hnone in E. simpl in E. discriminate.
  - intros ->. unfold findRelevantChunks. rewrite relevantOf_nil.
    destruct (isAggregationOf query); reflexivity.
Qed.

(** X2. Whatever the path, the selection is made of chunks of the
    collection, each taken at most once: it lists the chunks found at
    pairwise distinct positions of the collection. *)
Theorem findRelevantChunks_selects (query : jsstring)
  (chunks : list DocumentChunk) (limit : Z) :
  exists positions,
    NoDup positions /\
    Forall (fun i => i < List.length chunks) positions /\
    fst (findRelevantChunks query chunks limit)
    = map (fun i => nth i chunks noChunk) positions.
Proof.
  destruct (findRelevantChunks_paths query chunks limit) as [E|[[k E]|E]];
    rewrite E; simpl.
  - exists (seq 0 (List.length chunks)). split; [apply seq_NoDup|].
    split; [|now rewrite map_nth_seq].
    apply Forall_forall. intros i Hi. apply in_seq in Hi. lia.
  - exists (slice (seq 0 (List.length chunks)) 0 k).
    destruct (slice_prefix (seq 0 (List.length chunks)) k) as [n Hn].
    split; [|split].
    + rewrite Hn. apply NoDup_firstn, seq_NoDup.
    + rewrite Hn. apply Forall_forall. intros i Hi.
      apply In_firstn, in_seq in Hi. lia.
    + rewrite <- slice_map. now rewrite map_nth_seq.
  - exists (relevantPositions query chunks limit).
    split; [|split].
    + unfold relevantPositions.
      destruct (slice_prefix
                  (sort (keyDescending (scoreAt query chunks))
                     (filter (fun i => (0 <? scoreAt query chunks i)%Z)
                             (seq 0 (List.length chunks))))
                  (boundOf query limit)) as [n ->].
      apply NoDup_firstn.
      apply (Permutation_NoDup (Permutation_sym (sort_permutation _ _))).
      apply NoDup_filter, seq_NoDup.
    + apply relevantPositions_in_range.
    + apply relevantOf_positions.
Qed.

(** X3. For a limit that is not negative the selection holds at most
    max(limit, 5) chunks, and under aggregation intent at most
    max(2 * limit, 49): 30 and 60 with the default limit. *)
Theorem findRelevantChunks_size (query : jsstring)
  (chunks : list DocumentChunk) (limit : Z) :
  (0 <= limit)%Z ->
  (Z.of_nat (List.length (fst (findRelevantChunks query chunks limit)))
   <= if isAggregationOf query then Z.max (2 * limit) 49 else Z.max limit 5)%Z.
Proof.
  intros Hl. unfold findRelevantChunks.
  assert (Hrel : List.length (relevantOf query chunks limit)
                 <= Z.to_nat (boundOf query limit)).
  { rewrite relevantOf_closed. apply slice_zero_length.
    unfold boundOf. destruct (isAggregationOf query); lia. }
  unfold boundOf in Hrel.
  destruct (isAggregationOf query); simpl andb.
  - destruct (Nat.ltb_spec (List.length chunks) 50); simpl fst; [lia|].
    destruct ((List.length (relevantOf query chunks limit) =? 0)
              && (0 <? List.length chunks)); simpl fst.
    + pose proof (@slice_zero_length _ chunks 20 ltac:(lia)). lia.
    + lia.
  - destruct ((List.length (relevantOf query chunks limit) =? 0)
              && (0 <? List.length chunks)); simpl fst.
    + pose proof (@slice_zero_length _ chunks 5 ltac:(lia)). lia.
    + lia.
Qed.

(** Witness of X3: the default limit. *)
Lemma findRelevantChunks_size_witness :
  (0 <= DEFAULT_LIMIT)%Z /\
  (Z.of_nat (List.length (fst (findRelevantChunks "tax / rate" taxChunks
                                 DEFAULT_LIMIT)))
   <= if isAggregationOf "tax / rate" then Z.max (2 * DEFAULT_LIMIT) 49
      else Z.max DEFAULT_LIMIT 5)%Z.
Proof.
  split; [unfold DEFAULT_LIMIT; lia|].
  apply (findRelevantChunks_size (lit "tax / rate") taxChunks).
  unfold DEFAULT_LIMIT; lia.
Defined.

(* ===================================================================== *)
(** * The retriever: scores *)
(* ===================================================================== *)

Lemma fold_left_count (A : Type) (p : A -> bool) (l : list A) (s0 : Z) :
  fold_left (fun s t => if p t then (s + 1)%Z else s) l s0
  = (s0 + Z.of_nat (List.length (filter p l)))%Z.
Proof.
  revert s0. induction l as [|t l IH]; intros s0; simpl.
  - lia.
  - rewrite IH. destruct (p t); simpl List.length; lia.
Qed.

(** The score is the bonus plus the number of terms found. *)
Lemma scoreOf_closed (query : jsstring) (c : DocumentChunk) :
  scoreOf query c
  = ((if includes (toLowerCase (content c)) (toLowerCase query) then 10 else 0)
     + Z.of_nat (List.length
                   (filter (includes (toLowerCase (content c)))
                           (queryTermsOf query))))%Z.
Proof.
  unfold scoreOf, scoreChunk, score. rewrite fold_left_count.
  destruct (includes (toLowerCase (content c)) (toLowerCase query)); lia.
Qed.

(** X4. A score lies between 0 and 10 plus the number of query terms, a
    term counting as often as the query repeats it. It is 0 exactly when the
    lower-cased content contains neither the lower-cased query nor any of its
    terms, and it is at least 10 exactly when the content contains the
    query. *)
Theorem scoreOf_range (query : jsstring) (c : DocumentChunk) :
  (0 <= scoreOf query c
        <= 10 + Z.of_nat (List.length (queryTermsOf query)))%Z /\
  (scoreOf query c = 0%Z <->
   includes (toLowerCase (content c)) (toLowerCase query) = false /\
   forall term, In term (queryTermsOf query) ->
                includes (toLowerCase (content c)) term = false) /\
  ((10 <= scoreOf query c)%Z <->
   includes (toLowerCase (content c)) (toLowerCase query) = true \/
   10 <= List.length (filter (includes (toLowerCase (content c)))
                             (queryTermsOf query))).
Proof.
  rewrite scoreOf_closed.
  pose proof (filter_length_le (includes (toLowerCase (content c)))
                (queryTermsOf query)) as Hle.
  split; [|split].
  - destruct (includes (toLowerCase (content c)) (toLowerCase query)); lia.
  - split.
    + intros H.
      destruct (includes (toLowerCase (content c)) (toLowerCase query));
        [lia|].
      split; trivial. intros term Hin.
      destruct (includes (toLowerCase (content c)) term) eqn:Ht; trivial.
      assert (Hf : In term (filter (includes (toLowerCase (content c)))
                              (queryTermsOf query)))
        by (apply filter_In; now split).
      destruct (filter (includes (toLowerCase (content c)))
                  (queryTermsOf query)); [contradiction|].
      simpl List.length in H. lia.
    + intros [-> Hterms].
      rewrite (proj2 (length_zero_iff_nil _)); [reflexivity|].
      destruct (filter (includes (toLowerCase (content c)))
                  (queryTermsOf query)) as [|term rest] eqn:Hf; trivial.
      assert (Hin : In term (term :: rest)) by now left.
      rewrite <- Hf in Hin. apply filter_In in Hin as [Hin Ht].
      rewrite (Hterms term Hin) in Ht. discriminate.
  - destruct (includes (toLowerCase (content c)) (toLowerCase query)).
    + split; [now left | lia].
    + split; [right; lia | intros [H|H]; [discriminate | lia]].
Qed.

Lemma filter_none (A : Type) (p : A -> bool) (l : list A) :
  (forall x, In x l -> p x = false) -> filter p l = [].
Proof.
  induction l as [|x l IH]; simpl; intros H; trivial.
  rewrite (H x) by now left. apply IH. intros y Hy. apply H. now right.
Qed.

(** X5. The fallback. When no chunk of a non-empty collection scores above
    zero and the short-circuit does not apply, the first 5 chunks come back
    in collection order, the first 20 under aggregation intent, whatever the
    limit; the fallback line is written. *)
Theorem findRelevantChunks_fallback (query : jsstring)
  (chunks : list DocumentChunk) (limit : Z) :
  chunks <> [] ->
  (forall c, In c chunks -> scoreOf query c = 0%Z) ->
  isAggregationOf query && (List.length chunks <? 50) = false ->
  findRelevantChunks query chunks limit
  = (firstn (if isAggregationOf query then 20 else 5) chunks,
     [lit "No keyword matches found. Falling back to first chunks."]).
Proof.
  intros Hne Hzero Hshort. unfold findRelevantChunks. rewrite Hshort.
  assert (Hrel : relevantOf query chunks limit = []).
  { rewrite relevantOf_closed, filter_none.
    - simpl. apply slice_nil.
    - intros c Hc. now rewrite (Hzero c Hc). }
  rewrite Hrel. destruct chunks as [|c chunks]; [congruence|].
  simpl andb. cbv iota.
  destruct (isAggregationOf query).
  - change 20%Z with (Z.of_nat 20). now rewrite slice_zero_firstn.
  - change 5%Z with (Z.of_nat 5). now rewrite slice_zero_firstn.
Qed.

(** Witness of X5: seven chunks, none about revenue. *)
Lemma findRelevantChunks_fallback_witness :
  findRelevantChunks "revenue" (sixChunks ++ fruitChunks) DEFAULT_LIMIT
  = (firstn 5 (sixChunks ++ fruitChunks),
     [lit "No keyword matches found. Falling back to first chunks."]).
Proof.
  apply (@findRelevantChunks_fallback (lit "revenue")
           (sixChunks ++ fruitChunks) DEFAULT_LIMIT).
  - discriminate.
  - intros c Hc. simpl in Hc.
    repeat (destruct Hc as [<-|Hc]; [reflexivity|]). contradiction.
  - reflexivity.
Defined.

(** X6. On the scoring path no chunk is left out in favour of a chunk
    with a lower score: a chunk of the collection that scores more than some
    returned chunk is returned too. *)
Theorem findRelevantChunks_best_first (query : jsstring)
  (chunks : list DocumentChunk) (limit : Z) (r c : DocumentChunk) :
  snd (findRelevantChunks query chunks limit) = [] ->
  In r (fst (findRelevantChunks query chunks limit)) ->
  In c chunks ->
  (scoreOf query r < scoreOf query c)%Z ->
  In c (fst (findRelevantChunks query chunks limit)).
Proof.
  intros Hlog. rewrite (findRelevantChunks_silent _ _ _ Hlog).
  destruct (relevantOf_cut query chunks limit) as [n ->].
  set (matches := filter (fun c => (0 <? scoreOf query c)%Z) chunks).
  set (ranked := sort (keyDescending (scoreOf query)) matches).
  intros Hr Hc Hlt.
  assert (Hrpos : (0 < scoreOf query r)%Z).
  { apply In_firstn in Hr.
    apply (Permutation_in _ (sort_permutation _ matches)) in Hr.
    apply filter_In in Hr as [_ Hr]. now apply Z.ltb_lt in Hr. }
  assert (Hcin : In c ranked).
  { apply (Permutation_in _ (Permutation_sym (sort_permutation _ matches))).
    apply filter_In. split; trivial. apply Z.ltb_lt. lia. }
  rewrite <- (firstn_skipn n ranked) in Hcin.
  apply in_app_or in Hcin as [Hcin|Hcin]; trivial.
  exfalso.
  pose proof (sort_descending (scoreOf query) matches) as Hsorted.
  fold ranked in Hsorted. rewrite <- (firstn_skipn n ranked) in Hsorted.
  pose proof (StronglySorted_app_inv _ _ Hsorted r c Hr Hcin) as Hrc.
  unfold notBelow in Hrc. lia.
Qed.

(** X7. On the scoring path every returned chunk is a chunk of the
    collection that scores above zero; and when no more chunks score above
    zero than the bound allows (the limit, or twice the limit under
    aggregation intent), all of them are returned: the selection is a
    rearrangement of the chunks that match. *)
Theorem findRelevantChunks_matches (query : jsstring)
  (chunks : list DocumentChunk) (limit : Z) :
  snd (findRelevantChunks query chunks limit) = [] ->
  (forall c, In c (fst (findRelevantChunks query chunks limit)) ->
             In c chunks /\ (0 < scoreOf query c)%Z) /\
  ((Z.of_nat (List.length
                (filter (fun c => (0 <? scoreOf query c)%Z) chunks))
    <= if isAggregationOf query then limit * 2 else limit)%Z ->
   Permutation (fst (findRelevantChunks query chunks limit))
               (filter (fun c => (0 <? scoreOf query c)%Z) chunks)).
Proof.
  intros Hlog. rewrite (findRelevantChunks_silent _ _ _ Hlog). split.
  - destruct (relevantOf_cut query chunks limit) as [n ->].
    intros c Hc. apply In_firstn in Hc.
    apply (Permutation_in _ (sort_permutation _ _)) in Hc.
    apply filter_In in Hc as [Hin Hpos]. split; trivial.
    now apply Z.ltb_lt.
  - intros Hfew. rewrite relevantOf_closed, slice_zero_all.
    + apply sort_permutation.
    + rewrite (Permutation_length (sort_permutation _ _)). exact Hfew.
Qed.

(** Witness of X6 and X7 on the five chunks about tax and rate. *)
Lemma findRelevantChunks_matches_witness :
  snd (findRelevantChunks "tax / rate" taxChunks DEFAULT_LIMIT) = [] /\
  Permutation (fst (findRelevantChunks "tax / rate" taxChunks DEFAULT_LIMIT))
              (filter (fun c => (0 <? scoreOf "tax / rate" c)%Z) taxChunks).
Proof.
  split; [reflexivity|].
  apply (@findRelevantChunks_matches (lit "tax / rate") taxChunks DEFAULT_LIMIT).
  - reflexivity.
  - vm_compute. discriminate.
Defined.

Lemma findRelevantChunks_best_first_witness :
  (scoreOf "tax / rate" (nth 2 taxChunks noChunk)
   < scoreOf "tax / rate" (nth 3 taxChunks noChunk))%Z /\
  In (nth 3 taxChunks noChunk)
     (fst (findRelevantChunks "tax / rate" taxChunks DEFAULT_LIMIT)).
Proof.
  split; [reflexivity|].
  apply (@findRelevantChunks_best_first (lit "tax / rate") taxChunks
           DEFAULT_LIMIT (nth 2 taxChunks noChunk) (nth 3 taxChunks noChunk)).
  - reflexivity.
  - vm_compute. auto 10.
  - vm_compute. auto 10.
  - reflexivity.
Defined.

Lemma lowerChar_idempotent (c : ascii) : lowerChar (lowerChar c) = lowerChar c.
Proof.
  destruct c as [[] [] [] [] [] [] [] []]; vm_compute; reflexivity.
Qed.

Lemma toLowerCase_idempotent (s : jsstring) :
  toLowerCase (toLowerCase s) = toLowerCase s.
Proof.
  unfold toLowerCase. rewrite map_map. apply map_ext.
  intros c. apply lowerChar_idempotent.
Qed.

Lemma findRelevantChunks_by_lower (q1 q2 : jsstring)
  (chunks : list DocumentChunk) (limit : Z) :
  toLowerCase q1 = toLowerCase q2 ->
  findRelevantChunks q1 chunks limit = findRelevantChunks q2 chunks limit.
Proof.
  intros H.
  unfold findRelevantChunks, relevantOf, scoredChunksOf, scoreChunk,
    isAggregationOf, queryTermsOf.
  now rewrite H.
Qed.

(** X8. Matching ignores case. Two queries that differ only in the case
    of their letters select the same chunks and write the same line; so does
    a query and its lower-cased form; and the score of a chunk depends on its
    content only up to case. *)
Theorem findRelevantChunks_ignores_case :
  (forall q1 q2 chunks limit,
      toLowerCase q1 = toLowerCase q2 ->
      findRelevantChunks q1 chunks limit = findRelevantChunks q2 chunks limit) /\
  (forall query chunks limit,
      findRelevantChunks (toLowerCase query) chunks limit
      = findRelevantChunks query chunks limit) /\
  (forall query c1 c2,
      toLowerCase (content c1) = toLowerCase (content c2) ->
      scoreOf query c1 = scoreOf query c2).
Proof.
  split; [exact findRelevantChunks_by_lower|]. split.
  - intros query chunks limit. apply findRelevantChunks_by_lower.
    apply toLowerCase_idempotent.
  - intros query c1 c2 H. rewrite !scoreOf_closed. now rewrite H.
Qed.

(** Witness of X8. *)
Lemma findRelevantChunks_ignores_case_witness :
  toLowerCase "TAX / Rate" = toLowerCase "tax / rate" /\
  findRelevantChunks "TAX / Rate" taxChunks DEFAULT_LIMIT
  = findRelevantChunks "tax / rate" taxChunks DEFAULT_LIMIT.
Proof.
  split; [reflexivity|].
  apply (proj1 findRelevantChunks_ignores_case). reflexivity.
Defined.

(* ===================================================================== *)
(** * The chunker: sizes, batches, stamps *)
(* ===================================================================== *)

Lemma ceilDiv_gt (a b j : nat) : 0 < b -> j < ceilDiv a b -> j * b < a.
Proof.
  intros Hb Hj. destruct (le_lt_dec a (j * b)) as [Hle|]; trivial.
  apply (ceilDiv_spec _ j Hb) in Hle. lia.
Qed.

(** X9. No chunk of a free text is empty and none is longer than
    CHUNK_SIZE: each holds between 1 and 4000 code units, and carries the
    file name it was given. *)
Theorem chunkText_chunk_bounds (text fileName0 : jsstring) (c : DocumentChunk) :
  In c (chunkText text fileName0) ->
  1 <= List.length (content c) <= 4000 /\ fileName c = fileName0.
Proof.
  rewrite chunkText_closed. intros Hc.
  apply in_map_iff in Hc as [j [<- Hj]]. apply in_seq in Hj.
  split; [|reflexivity].
  assert (Hlt : j * CHUNK_SIZE < List.length text)
    by (apply ceilDiv_gt; [apply CHUNK_SIZE_pos | lia]).
  unfold textPiece, content.
  rewrite substring_ordered by lia.
  rewrite length_firstn, length_skipn.
  change 4000 with CHUNK_SIZE. pose proof CHUNK_SIZE_pos. lia.
Qed.

Lemma chunkText_chunk_bounds_witness :
  1 <= List.length (lit "hello world") <= 4000.
Proof.
  apply (@chunkText_chunk_bounds (lit "hello world") (lit "a.pdf")
           (mkChunk "a.pdf" "hello world" 0)).
  vm_compute. now left.
Defined.

Lemma ROWS_PER_CHUNK_pos : 0 < ROWS_PER_CHUNK.
Proof. unfold ROWS_PER_CHUNK. lia. Qed.

Lemma processCSVLoop_closed (fileName0 : jsstring)
  (headers dataRows : list jsstring) (i : nat) (chunks : list DocumentChunk) :
  i = List.length chunks * ROWS_PER_CHUNK ->
  processCSVLoop fileName0 headers dataRows i chunks =
  chunks ++ map (csvBatchChunk fileName0 headers dataRows)
                (seq (List.length chunks)
                     (ceilDiv (List.length dataRows) ROWS_PER_CHUNK
                      - List.length chunks)).
Proof.
  remember (List.length dataRows - i) as m eqn:Hm.
  revert i chunks Hm.
  induction m as [m IH] using lt_wf_ind; intros i chunks Hm Hi.
  pose proof ROWS_PER_CHUNK_pos as Hpos.
  rewrite processCSVLoop_step.
  destruct (lt_dec i (List.length dataRows)) as [Hlt|Hge].
  - rewrite (IH (List.length dataRows - (i + ROWS_PER_CHUNK))); trivial;
      [| lia | rewrite length_app; simpl; lia].
    rewrite length_app. simpl List.length.
    assert (Hk : List.length chunks < ceilDiv (List.length dataRows) ROWS_PER_CHUNK).
    { destruct (le_lt_dec (ceilDiv (List.length dataRows) ROWS_PER_CHUNK)
                          (List.length chunks)) as [Hle|]; trivial.
      apply (ceilDiv_spec _ _ Hpos) in Hle. lia. }
    replace (ceilDiv (List.length dataRows) ROWS_PER_CHUNK - List.length chunks)
      with (S (ceilDiv (List.length dataRows) ROWS_PER_CHUNK
               - (List.length chunks + 1))) by lia.
    rewrite <- app_assoc. cbn [seq map app].
    unfold csvBatchChunk at 2, csvBatch, csvPiece.
    rewrite slice_nonneg, <- Hi.
    replace (i + ROWS_PER_CHUNK - i) with ROWS_PER_CHUNK by lia.
    now rewrite Nat.add_1_r.
  - assert (Hle : ceilDiv (List.length dataRows) ROWS_PER_CHUNK
                  <= List.length chunks).
    { apply (ceilDiv_spec _ _ Hpos). lia. }
    replace (ceilDiv (List.length dataRows) ROWS_PER_CHUNK - List.length chunks)
      with 0 by lia.
    simpl. now rewrite app_nil_r.
Qed.

Lemma processCSV_closed (file : File) (row0 : jsstring) (dataRows : list jsstring) :
  csvRows (text file) = row0 :: dataRows ->
  processCSV file
  = Normal (map (csvBatchChunk (name file) (split ","%char row0) dataRows)
                (seq 0 (ceilDiv (List.length dataRows) ROWS_PER_CHUNK))).
Proof.
  intros Hrows. unfold processCSV. rewrite Hrows. simpl bind.
  rewrite sliceFrom_1. simpl tl.
  rewrite processCSVLoop_closed by reflexivity.
  simpl. now rewrite Nat.sub_0_r.
Qed.

Lemma windows_concat (A : Type) (w : nat) (l : list A) (n : nat) :
  List.concat (map (fun j => firstn w (skipn (j * w) l)) (seq 0 n))
  = firstn (n * w) l.
Proof.
  induction n as [|n IH].
  - reflexivity.
  - rewrite seq_S, map_app, concat_app, IH. cbn [map List.concat plus].
    rewrite app_nil_r, firstn_then_more. now rewrite Nat.mul_succ_l.
Qed.

Lemma csvBatch_bounds (dataRows : list jsstring) (j : nat) :
  j < ceilDiv (List.length dataRows) ROWS_PER_CHUNK ->
  1 <= List.length (csvBatch dataRows j) <= 30.
Proof.
  intros Hj. apply (ceilDiv_gt _ ROWS_PER_CHUNK_pos) in Hj.
  unfold csvBatch. rewrite length_firstn, length_skipn.
  unfold ROWS_PER_CHUNK in *. lia.
Qed.

(** X10. A table with a header row and H data rows (blank lines apart) is
    cut into ceil(H / 30) chunks; a table of a header row alone gives zero
    chunks and no error. *)
Theorem processCSV_chunk_count (file : File) (row0 : jsstring)
  (dataRows : list jsstring) :
  csvRows (text file) = row0 :: dataRows ->
  exists chunks,
    processCSV file = Normal chunks /\
    List.length chunks = ceilDiv (List.length dataRows) 30 /\
    (chunks = [] <-> dataRows = []).
Proof.
  intros Hrows. rewrite (processCSV_closed _ Hrows).
  eexists. split; [reflexivity|].
  rewrite length_map, length_seq. split; [reflexivity|].
  split; intros H.
  - apply (f_equal (@List.length _)) in H.
    rewrite length_map, length_seq in H.
    change (List.length (@nil DocumentChunk)) with 0 in H.
    assert (Hle : ceilDiv (List.length dataRows) ROWS_PER_CHUNK <= 0) by lia.
    apply (ceilDiv_spec _ _ ROWS_PER_CHUNK_pos) in Hle.
    apply length_zero_iff_nil. lia.
  - subst dataRows. reflexivity.
Qed.

Lemma processCSV_chunk_count_witness :
  exists chunks,
    processCSV sampleTable = Normal chunks /\
    List.length chunks = ceilDiv 65 30 /\
    (chunks = [] <-> repeat (lit "north,12") 65 = []).
Proof.
  apply (@processCSV_chunk_count sampleTable (lit "region,units")
           (repeat (lit "north,12") 65)).
  vm_compute. reflexivity.
Defined.

(** X11. The data rows go into the chunks in order, each row into exactly
    one chunk: chunk [j] renders the [j]-th batch of at most 30 rows, one
    line per row under the header line, and the batches put end to end are
    the data rows. No batch is empty. *)
Theorem processCSV_batches (file : File) (row0 : jsstring)
  (dataRows : list jsstring) (chunks : list DocumentChunk) :
  csvRows (text file) = row0 :: dataRows ->
  processCSV file = Normal chunks ->
  List.concat (map (csvBatch dataRows) (seq 0 (List.length chunks))) = dataRows /\
  forall j c,
    nth_error chunks j = Some c ->
    1 <= List.length (csvBatch dataRows j) <= 30 /\
    content c
    = lit "[CSV Header: " ++ join ", " (split ","%char row0) ++ lit "]"
      ++ newline
      ++ join newline
           (map (formatRow (split ","%char row0)) (csvBatch dataRows j)).
Proof.
  intros Hrows Hok. rewrite (processCSV_closed _ Hrows) in Hok.
  injection Hok as <-. rewrite length_map, length_seq. split.
  - unfold csvBatch. rewrite windows_concat. apply firstn_all2.
    now apply (ceilDiv_spec _ _ ROWS_PER_CHUNK_pos).
  - intros j c Hc. apply nth_error_map_seq in Hc as [Hj ->].
    split; [now apply csvBatch_bounds | reflexivity].
Qed.

Lemma processCSV_batches_witness :
  List.concat (map (csvBatch (repeat (lit "north,12") 65))
                   (seq 0 (List.length sampleTableChunks)))
  = repeat (lit "north,12") 65.
Proof.
  apply (@processCSV_batches sampleTable (lit "region,units")
           (repeat (lit "north,12") 65) sampleTableChunks).
  - vm_compute. reflexivity.
  - vm_compute. reflexivity.
Defined.

Lemma mapiFrom_fields (headers values : list jsstring) (k : nat) :
  List.length headers + k <= List.length values ->
  mapiFrom (fun h idx =>
              trim h ++ lit ": "
              ++ templateValue (option_map trim (nth_error values idx)))
           k headers
  = map (fun hv => trim (fst hv) ++ lit ": " ++ trim (snd hv))
        (combine headers (skipn k values)).
Proof.
  revert k. induction headers as [|h headers IH]; intros k Hk; simpl.
  - reflexivity.
  - simpl in Hk.
    destruct (skipn k values) as [|v rest] eqn:Hskip.
    { apply (f_equal (@List.length _)) in Hskip.
      rewrite length_skipn in Hskip. simpl in Hskip. lia. }
    assert (Hnth : nth_error values k = Some v).
    { rewrite <- (Nat.add_0_r k), <- nth_error_skipn, Hskip. reflexivity. }
    assert (Hrest : skipn (S k) values = rest).
    { replace (S k) with (1 + k) by lia.
      rewrite <- skipn_skipn, Hskip. reflexivity. }
    rewrite Hnth, IH by lia. now rewrite Hrest.
Qed.

(** X12. A data row with at least as many fields as there are headers
    renders as the pairs header: value, both trimmed, joined by " | ", in
    header order; the fields beyond the last header are dropped. *)
Theorem formatRow_full_row (headers : list jsstring) (row : jsstring) :
  List.length headers <= List.length (split ","%char row) ->
  formatRow headers row
  = join " | "
      (map (fun hv => trim (fst hv) ++ lit ": " ++ trim (snd hv))
           (combine headers (split ","%char row))).
Proof.
  intros Hlen. unfold formatRow, mapi.
  rewrite mapiFrom_fields by lia. reflexivity.
Qed.

Lemma formatRow_full_row_witness :
  formatRow (map lit ["name"; " age "]%string) "Bob , 41,extra"
  = lit "name: Bob | age: 41".
Proof.
  rewrite (@formatRow_full_row (map lit ["name"; " age "]%string)
             (lit "Bob , 41,extra")).
  - reflexivity.
  - simpl. lia.
Defined.

Lemma pdfFullText_acc (i : nat) (pages : list (list jsstring))
  (fullText : jsstring) :
  pdfFullText i pages fullText = fullText ++ pdfFullText i pages [].
Proof.
  revert i fullText. induction pages as [|items pages IH];
    intros i fullText; cbn [pdfFullText].
  - now rewrite app_nil_r.
  - set (block := lit "--- Page " ++ ofNat i ++ lit " ---" ++ newline
                  ++ join " " items ++ newline ++ newline).
    rewrite (IH (S i) (fullText ++ block)), (IH (S i) ([] ++ block)).
    now rewrite app_assoc.
Qed.

Lemma chunkText_concat (text fileName0 : jsstring) :
  List.concat (map content (chunkText text fileName0)) = text.
Proof.
  rewrite chunkText_closed, textPieces_concat.
  apply firstn_all2. now apply (ceilDiv_spec _ _ CHUNK_SIZE_pos).
Qed.

Lemma chunkText_nil_iff (text fileName0 : jsstring) :
  chunkText text fileName0 = [] <-> text = [].
Proof.
  split; intros H.
  - rewrite <- (chunkText_concat text fileName0), H. reflexivity.
  - subst text. reflexivity.
Qed.

Lemma pdfFullText_first_page (items : list jsstring)
  (pages : list (list jsstring)) :
  pdfFullText 1 (items :: pages) []
  = lit "--- Page 1 ---" ++ newline ++ join " " items ++ newline ++ newline
    ++ pdfFullText 2 pages [].
Proof.
  simpl pdfFullText at 1. rewrite pdfFullText_acc.
  change (ofNat 1) with (lit "1"). simpl. now rewrite <- !app_assoc.
Qed.

(** X13. What [processPDF] returns. Without pdf.js it throws before it
    reads the file; an exception of pdf.js comes out unchanged; otherwise
    the chunks cut the page-marked text: their contents put end to end are
    that text, a document without pages gives zero chunks, and a document
    with pages gives at least one chunk, the first starting with the marker
    of page 1. *)
Theorem processPDF_outcomes (file : File) :
  processPDF false file = Throw (Error (lit "PDF.js library not loaded")) /\
  (forall e, pdfPages file = Throw e -> processPDF true file = Throw e) /\
  (forall pages,
      pdfPages file = Normal pages ->
      exists chunks,
        processPDF true file = Normal chunks /\
        List.concat (map content chunks) = pdfFullText 1 pages [] /\
        (chunks = [] <-> pages = []) /\
        (pages <> [] ->
         startsWith (content (nth 0 chunks noChunk))
                    (lit "--- Page 1 ---" ++ newline) = true)).
Proof.
  split; [reflexivity|]. split.
  - intros e He. unfold processPDF. now rewrite He.
  - intros pages Hp. unfold processPDF. rewrite Hp. simpl negb. cbv iota.
    simpl bind. eexists. split; [reflexivity|].
    set (fullText := pdfFullText 1 pages []).
    assert (Hfull : fullText = [] <-> pages = []).
    { unfold fullText. destruct pages as [|items pages].
      - split; reflexivity.
      - rewrite pdfFullText_first_page. split; discriminate. }
    split; [|split].
    + apply chunkText_concat.
    + rewrite chunkText_nil_iff. exact Hfull.
    + intros Hne. destruct pages as [|items pages]; [congruence|].
      rewrite chunkText_closed.
      assert (Hn : 0 < ceilDiv (List.length fullText) CHUNK_SIZE).
      { destruct (ceilDiv (List.length fullText) CHUNK_SIZE) eqn:E; [|lia].
        assert (Hle : ceilDiv (List.length fullText) CHUNK_SIZE <= 0) by lia.
        apply (ceilDiv_spec _ _ CHUNK_SIZE_pos) in Hle.
        assert (fullText = []) by (apply length_zero_iff_nil; lia).
        apply Hfull in H. discriminate. }
      destruct (ceilDiv (List.length fullText) CHUNK_SIZE) as [|n]; [lia|].
      cbn [seq map nth]. unfold textPiece, content.
      rewrite substring_ordered by lia.
      change (0 * CHUNK_SIZE) with 0. cbn [skipn].
      rewrite Nat.add_0_l, Nat.sub_0_r.
      unfold fullText. rewrite pdfFullText_first_page.
      remember (join " " items ++ newline ++ newline ++ pdfFullText 2 pages [])
        as rest.
      unfold CHUNK_SIZE. simpl.
      match goal with |- startsWith ?s [] = true => destruct s end;
        reflexivity.
Qed.

Lemma processPDF_outcomes_witness :
  exists chunks,
    processPDF true samplePdf = Normal chunks /\
    List.concat (map content chunks)
    = lit "--- Page 1 ---" ++ newline ++ lit "Hello world" ++ newline ++ newline
      ++ lit "--- Page 2 ---" ++ newline ++ lit "Bye" ++ newline ++ newline.
Proof.
  destruct (proj2 (proj2 (processPDF_outcomes samplePdf)) _ eq_refl)
    as [chunks [H1 [H2 _]]].
  exists chunks. split; [exact H1 | exact H2].
Defined.

Lemma split_app_sep (sep : ascii) (a b : jsstring) :
  split sep (a ++ sep :: b) = split sep a ++ split sep b.
Proof.
  induction a as [|c a IH]; simpl.
  - now rewrite Ascii.eqb_refl.
  - destruct (Ascii.eqb c sep); rewrite IH; [reflexivity|].
    pose proof (split_nonempty sep a) as Hne.
    destruct (split sep a); [congruence | reflexivity].
Qed.

Lemma split_without_sep (sep : ascii) (s : jsstring) :
  ~ In sep s -> split sep s = [s].
Proof.
  induction s as [|c s IH]; simpl; intros Hnot; [reflexivity|].
  destruct (Ascii.eqb_spec c sep) as [->|_]; [tauto|].
  rewrite IH by tauto. reflexivity.
Qed.

Lemma pop_last (A : Type) (l : list A) (x : A) : pop (l ++ [x]) = Some x.
Proof. unfold pop. now rewrite rev_app_distr. Qed.

Lemma extension_of_suffix (file : File) (base ext : jsstring) :
  ~ In "."%char ext ->
  name file = base ++ "."%char :: ext \/ name file = ext ->
  extension file = Some (toLowerCase ext).
Proof.
  intros Hext [Hn|Hn]; unfold extension; rewrite Hn.
  - rewrite split_app_sep, (@split_without_sep _ ext Hext), pop_last.
    reflexivity.
  - rewrite (@split_without_sep _ ext Hext). reflexivity.
Qed.

(** X14. [processFile] goes by what follows the last dot of the file
    name, whatever its case, and by the whole name when it has no dot: pdf
    goes to [processPDF], csv to [processCSV], anything else is refused with
    the unsupported-type error. *)
Theorem processFile_by_extension (pdfjsLoaded : bool) (file : File)
  (base ext : jsstring) :
  ~ In "."%char ext ->
  name file = base ++ "."%char :: ext \/ name file = ext ->
  (toLowerCase ext = lit "pdf" ->
   processFile pdfjsLoaded file = processPDF pdfjsLoaded file) /\
  (toLowerCase ext = lit "csv" ->
   processFile pdfjsLoaded file = processCSV file) /\
  (toLowerCase ext <> lit "pdf" -> toLowerCase ext <> lit "csv" ->
   processFile pdfjsLoaded file
   = Throw (Error (lit "Unsupported file type. Please upload PDF or CSV."))).
Proof.
  intros Hext Hname.
  pose proof (@extension_of_suffix file base ext Hext Hname) as E.
  unfold processFile, isExtension. rewrite E.
  split; [|split].
  - intros ->. reflexivity.
  - intros ->. reflexivity.
  - intros Hpdf Hcsv.
    destruct (eqString (toLowerCase ext) "pdf") eqn:E1.
    { apply eqString_true_iff in E1. congruence. }
    destruct (eqString (toLowerCase ext) "csv") eqn:E2.
    { apply eqString_true_iff in E2. congruence. }
    reflexivity.
Qed.

Lemma processFile_by_extension_witness :
  processFile true samplePdf = processPDF true samplePdf /\
  processFile true (mkFile "csv" "a,b" (Throw TypeError))
  = processCSV (mkFile "csv" "a,b" (Throw TypeError)).
Proof.
  split.
  - apply (@processFile_by_extension true samplePdf (lit "Book") (lit "PDF")).
    + simpl. intuition discriminate.
    + left. reflexivity.
    + reflexivity.
  - apply (@processFile_by_extension true (mkFile "csv" "a,b" (Throw TypeError))
             [] (lit "csv")).
    + simpl. intuition discriminate.
    + right. reflexivity.
    + reflexivity.
Defined.

Lemma processCSVLoop_stamps (fileName0 : jsstring)
  (headers dataRows : list jsstring) (i : nat) (chunks : list DocumentChunk) :
  Forall (fun c => fileName c = fileName0) chunks ->
  Forall (fun c => fileName c = fileName0)
         (processCSVLoop fileName0 headers dataRows i chunks).
Proof.
  remember (List.length dataRows - i) as m eqn:Hm.
  revert i chunks Hm.
  induction m as [m IH] using lt_wf_ind; intros i chunks Hm Hinv.
  rewrite processCSVLoop_step.
  destruct (lt_dec i (List.length dataRows)) as [Hlt|Hge]; trivial.
  apply (IH (List.length dataRows - (i + ROWS_PER_CHUNK))); trivial.
  - unfold ROWS_PER_CHUNK. lia.
  - apply Forall_app. split; trivial. now repeat constructor.
Qed.

Lemma chunkText_stamps (text fileName0 : jsstring) :
  Forall (fun c => fileName c = fileName0) (chunkText text fileName0).
Proof.
  rewrite chunkText_closed. apply Forall_forall. intros c Hc.
  apply in_map_iff in Hc as [j [<- _]]. reflexivity.
Qed.

Lemma processFile_fileName (pdfjsLoaded : bool) (file : File)
  (chunks : list DocumentChunk) :
  processFile pdfjsLoaded file = Normal chunks ->
  Forall (fun c => fileName c = name file) chunks.
Proof.
  unfold processFile.
  destruct (isExtension (extension file) "pdf").
  - unfold processPDF. destruct pdfjsLoaded; simpl; [|discriminate].
    destruct (pdfPages file); simpl; [|discriminate].
    intros [= <-]. apply chunkText_stamps.
  - destruct (isExtension (extension file) "csv"); [|discriminate].
    unfold processCSV. destruct (nth_error (csvRows (text file)) 0); simpl.
    + intros [= <-]. apply processCSVLoop_stamps. constructor.
    + discriminate.
Qed.

(** X15. Every chunk that [processFile] returns carries the name of the
    file, whichever variant made it. *)
Theorem processFile_stamps (pdfjsLoaded : bool) (file : File)
  (chunks : list DocumentChunk) :
  processFile pdfjsLoaded file = Normal chunks ->
  Forall (fun c => fileName c = name file) chunks.
Proof.
  unfold processFile. intros Hok.
  destruct (isExtension (extension file) "pdf").
  - unfold processPDF in Hok. destruct pdfjsLoaded; [|discriminate].
    destruct (pdfPages file) as [pages|e]; [|discriminate].
    injection Hok as <-. apply chunkText_stamps.
  - destruct (isExtension (extension file) "csv"); [|discriminate].
    unfold processCSV in Hok.
    destruct (nth_error (csvRows (text file)) 0) as [row0|]; [|discriminate].
    injection Hok as <-. apply processCSVLoop_stamps. constructor.
Qed.

Lemma processFile_stamps_witness :
  Forall (fun c => fileName c = lit "report.csv") sampleTableChunks.
Proof.
  apply (@processFile_stamps true sampleTable sampleTableChunks).
  vm_compute. reflexivity.
Defined.

(* ===================================================================== *)
(** * The callers: uploads *)
(* ===================================================================== *)

Lemma arrayIncludes_In (names : list jsstring) (x : jsstring) :
  App.arrayIncludes names x = true <-> In x names.
Proof.
  unfold App.arrayIncludes. rewrite existsb_exists. split.
  - intros [y [Hy E]]. apply eqString_true_iff in E. now subst.
  - intros H. exists x. split; trivial. now apply eqString_true_iff.
Qed.

(** The loop when every file it has to process is processed. *)
Lemma uploadLoop_ok (pdfjsLoaded : bool) (kb : KB.KnowledgeBase)
  (files : list File) (accChunks : list DocumentChunk)
  (accNames : list jsstring) :
  (forall file, In file files -> fresh kb file = true ->
                exists chunks, processFile pdfjsLoaded file = Normal chunks) ->
  exists made,
    Forall2 (fun file chunks => processFile pdfjsLoaded file = Normal chunks)
            (filter (fresh kb) files) made /\
    App.uploadLoop pdfjsLoaded kb files accChunks accNames
    = Normal (accChunks ++ List.concat made,
              accNames ++ map name (filter (fresh kb) files)).
Proof.
  revert accChunks accNames.
  induction files as [|file files IH]; intros accChunks accNames Hok.
  - exists []. split; [constructor|]. simpl. now rewrite !app_nil_r.
  - assert (Hinc : App.arrayIncludes (KB.fileNames kb) (name file)
                   = negb (fresh kb file))
      by (unfold fresh; now rewrite negb_involutive).
    simpl. rewrite Hinc.
    destruct (fresh kb file) eqn:Hfresh; simpl negb; cbv iota.
    + destruct (Hok file (or_introl eq_refl) Hfresh) as [chunks Hchunks].
      rewrite Hchunks. simpl bind.
      destruct (IH (accChunks ++ chunks) (accNames ++ [name file]))
        as [made [Hmade Hloop]].
      { intros f Hf. apply Hok. now right. }
      exists (chunks :: made). split; [now constructor|].
      rewrite Hloop. simpl. now rewrite <- !app_assoc.
    + apply IH. intros f Hf. apply Hok. now right.
Qed.

(** The loop when some file it has to process is refused. *)
Lemma uploadLoop_fails (pdfjsLoaded : bool) (kb : KB.KnowledgeBase)
  (files : list File) (accChunks : list DocumentChunk)
  (accNames : list jsstring) (file : File) (e : exn) :
  In file files -> fresh kb file = true ->
  processFile pdfjsLoaded file = Throw e ->
  exists e', App.uploadLoop pdfjsLoaded kb files accChunks accNames = Throw e'.
Proof.
  revert accChunks accNames.
  induction files as [|f files IH]; intros accChunks accNames Hin Hfresh He;
    [contradiction|].
  simpl.
  destruct (App.arrayIncludes (KB.fileNames kb) (name f)) eqn:Hknown.
  - destruct Hin as [->|Hin]; [|now apply IH].
    unfold fresh in Hfresh. rewrite Hknown in Hfresh. discriminate.
  - destruct (processFile pdfjsLoaded f) as [chunks|e0] eqn:Hf; simpl.
    + destruct Hin as [->|Hin]; [congruence | now apply IH].
    + now exists e0.
Qed.

Lemma uploadLoop_known (pdfjsLoaded : bool) (kb : KB.KnowledgeBase)
  (files : list File) (accChunks : list DocumentChunk)
  (accNames : list jsstring) :
  (forall file, In file files -> In (name file) (KB.fileNames kb)) ->
  App.uploadLoop pdfjsLoaded kb files accChunks accNames
  = Normal (accChunks, accNames).
Proof.
  induction files as [|f files IH]; intros Hknown; simpl; [reflexivity|].
  rewrite (proj2 (arrayIncludes_In _ _) (Hknown f (or_introl eq_refl))).
  apply IH. intros file Hfile. apply Hknown. now right.
Qed.

(** X16. An upload is all or nothing for the whole batch: when
    [processFile] refuses one file that the knowledge base does not list
    yet, the knowledge base stays as it was, also for the files of the batch
    that were processed before it, and the alert is shown. *)
Theorem handleFileUpload_all_or_nothing (pdfjsLoaded : bool) (st : App.State)
  (files : list File) (file : File) (e : exn) :
  In file files ->
  App.arrayIncludes (KB.fileNames (App.knowledgeBase st)) (name file) = false ->
  processFile pdfjsLoaded file = Throw e ->
  App.knowledgeBase (fst (App.handleFileUpload pdfjsLoaded st files))
  = App.knowledgeBase st /\
  snd (App.handleFileUpload pdfjsLoaded st files)
  = [lit "Error processing files. Please check file formats."].
Proof.
  intros Hin Hnew He. unfold App.handleFileUpload.
  destruct files as [|f0 files0] eqn:Hfiles; [contradiction|].
  rewrite <- Hfiles in *. replace (List.length files =? 0) with false
    by (subst files; reflexivity).
  destruct (@uploadLoop_fails pdfjsLoaded (App.knowledgeBase st) files [] []
              file e Hin) as [e' ->]; trivial.
  - unfold fresh. now rewrite Hnew.
  - split; reflexivity.
Qed.

Lemma handleFileUpload_all_or_nothing_witness :
  App.knowledgeBase
    (fst (App.handleFileUpload true App.initial [sampleTable; notesTxt]))
  = App.knowledgeBase App.initial.
Proof.
  apply (@handleFileUpload_all_or_nothing true App.initial
           [sampleTable; notesTxt] notesTxt (Error unsupportedMessage)).
  - simpl. auto.
  - reflexivity.
  - reflexivity.
Defined.

(** X17. An upload in which every file not yet listed is processed only
    appends: the chunks of those files, file by file in the order picked,
    after the chunks that were there, and their names after the names that
    were there. Files already listed add nothing, and no alert is shown. *)
Theorem handleFileUpload_appends (pdfjsLoaded : bool) (st : App.State)
  (files : list File) :
  (forall file, In file files ->
      fresh (App.knowledgeBase st) file = true ->
      exists chunks, processFile pdfjsLoaded file = Normal chunks) ->
  exists made,
    Forall2 (fun file chunks => processFile pdfjsLoaded file = Normal chunks)
            (filter (fresh (App.knowledgeBase st)) files) made /\
    KB.chunks (App.knowledgeBase (fst (App.handleFileUpload pdfjsLoaded st files)))
    = KB.chunks (App.knowledgeBase st) ++ List.concat made /\
    KB.fileNames (App.knowledgeBase (fst (App.handleFileUpload pdfjsLoaded st files)))
    = KB.fileNames (App.knowledgeBase st)
      ++ map name (filter (fresh (App.knowledgeBase st)) files) /\
    snd (App.handleFileUpload pdfjsLoaded st files) = [].
Proof.
  intros Hok. unfold App.handleFileUpload.
  destruct files as [|f0 files0] eqn:Hfiles.
  - exists []. simpl. rewrite !app_nil_r. repeat split. constructor.
  - rewrite <- Hfiles in *. replace (List.length files =? 0) with false
      by (subst files; reflexivity).
    destruct (@uploadLoop_ok pdfjsLoaded (App.knowledgeBase st) files [] [] Hok)
      as [made [Hmade ->]].
    exists made. simpl. repeat split. exact Hmade.
Qed.

Lemma handleFileUpload_appends_witness :
  KB.fileNames
    (App.knowledgeBase
       (fst (App.handleFileUpload true App.initial [sampleTable; samplePdf])))
  = [lit "report.csv"; lit "Book.PDF"].
Proof.
  destruct (@handleFileUpload_appends true App.initial [sampleTable; samplePdf])
    as [made [_ [_ [H _]]]].
  - intros file [<-|[<-|[]]] _; eexists; vm_compute; reflexivity.
  - exact H.
Defined.

Lemma uploadLoop_names (pdfjsLoaded : bool) (kb : KB.KnowledgeBase)
  (files : list File) (accChunks newChunks : list DocumentChunk)
  (accNames newNames : list jsstring) :
  App.uploadLoop pdfjsLoaded kb files accChunks accNames
  = Normal (newChunks, newNames) ->
  (forall x, In x accNames -> In x newNames) /\
  (forall file, In file files ->
                In (name file) (KB.fileNames kb ++ newNames)) /\
  (Forall (fun c => In (fileName c) accNames) accChunks ->
   Forall (fun c => In (fileName c) newNames) newChunks).
Proof.
  revert accChunks accNames.
  induction files as [|f files IH]; intros accChunks accNames; simpl.
  - intros [= <- <-]. repeat split; trivial. contradiction.
  - destruct (App.arrayIncludes (KB.fileNames kb) (name f)) eqn:Hknown.
    + intros Hloop. destruct (IH _ _ Hloop) as [Hsub [Hall Hst]].
      repeat split; trivial.
      intros file [<-|Hfile]; [|now apply Hall].
      apply in_or_app. left. now apply arrayIncludes_In.
    + destruct (processFile pdfjsLoaded f) as [chunks|e] eqn:Hf; simpl;
        [|discriminate].
      intros Hloop. destruct (IH _ _ Hloop) as [Hsub [Hall Hst]].
      split; [|split].
      * intros x Hx. apply Hsub, in_or_app. now left.
      * intros file [<-|Hfile]; [|now apply Hall].
        apply in_or_app. right. apply Hsub, in_or_app. right. now left.
      * intros Hacc. apply Hst, Forall_app. split.
        -- eapply Forall_impl; [|exact Hacc].
           intros c Hc. apply in_or_app. now left.
        -- eapply Forall_impl; [|exact (processFile_fileName _ _ Hf)].
           intros c ->. apply in_or_app. right. now left.
Qed.

(** X18. Picking the same files again changes nothing: after an upload
    that went through, a second upload of the same batch leaves the state as
    it is and shows no alert. *)
Theorem handleFileUpload_again (pdfjsLoaded : bool) (st : App.State)
  (files : list File) :
  snd (App.handleFileUpload pdfjsLoaded st files) = [] ->
  App.handleFileUpload pdfjsLoaded
    (fst (App.handleFileUpload pdfjsLoaded st files)) files
  = (fst (App.handleFileUpload pdfjsLoaded st files), []).
Proof.
  unfold App.handleFileUpload at 1 3 4.
  destruct (List.length files =? 0) eqn:Hlen.
  - intros _. simpl. unfold App.handleFileUpload. now rewrite Hlen.
  - destruct (App.uploadLoop pdfjsLoaded (App.knowledgeBase st) files [] [])
      as [[newChunks newNames]|e] eqn:Hloop; simpl; [|discriminate].
    intros _. unfold App.handleFileUpload. rewrite Hlen.
    cbn [App.knowledgeBase].
    rewrite uploadLoop_known.
    + cbn [App.messages App.inputText App.isLoading App.knowledgeBase
             KB.chunks KB.fileNames].
      now rewrite !app_nil_r.
    + intros file Hfile. cbn [KB.fileNames].
      now apply (proj1 (proj2 (uploadLoop_names _ _ _ _ _ Hloop))).
Qed.

Lemma handleFileUpload_again_witness :
  App.handleFileUpload true
    (fst (App.handleFileUpload true App.initial [sampleTable; samplePdf]))
    [sampleTable; samplePdf]
  = (fst (App.handleFileUpload true App.initial [sampleTable; samplePdf]), []).
Proof.
  apply (@handleFileUpload_again true App.initial [sampleTable; samplePdf]).
  vm_compute. reflexivity.
Defined.

(** What the loop returns when it returns: the chunks of the files not yet
    listed, file by file, and their names. *)
Lemma uploadLoop_result (pdfjsLoaded : bool) (kb : KB.KnowledgeBase)
  (files : list File) (accChunks newChunks : list DocumentChunk)
  (accNames newNames : list jsstring) :
  App.uploadLoop pdfjsLoaded kb files accChunks accNames
  = Normal (newChunks, newNames) ->
  exists made,
    Forall2 (fun file chunks => processFile pdfjsLoaded file = Normal chunks)
            (filter (fresh kb) files) made /\
    newChunks = accChunks ++ List.concat made /\
    newNames = accNames ++ map name (filter (fresh kb) files).
Proof.
  revert accChunks accNames.
  induction files as [|f files IH]; intros accChunks accNames; simpl.
  - intros [= <- <-]. exists []. split; [constructor|].
    now rewrite !app_nil_r.
  - assert (Hinc : App.arrayIncludes (KB.fileNames kb) (name f)
                   = negb (fresh kb f))
      by (unfold fresh; now rewrite negb_involutive).
    rewrite Hinc. destruct (fresh kb f) eqn:Hfresh; simpl negb; cbv iota.
    + destruct (processFile pdfjsLoaded f) as [chunks|e] eqn:Hf; simpl;
        [|discriminate].
      intros Hloop. destruct (IH _ _ Hloop) as [made [Hmade [-> ->]]].
      exists (chunks :: made). split; [now constructor|].
      simpl. now rewrite <- !app_assoc.
    + apply IH.
Qed.

Lemma fresh_not_listed (kb : KB.KnowledgeBase) (files : list File)
  (s : jsstring) :
  In s (map name (filter (fresh kb) files)) -> ~ In s (KB.fileNames kb).
Proof.
  intros Hs Hold. apply in_map_iff in Hs as [f [<- Hf]].
  apply filter_In in Hf as [_ Hf]. unfold fresh in Hf.
  apply arrayIncludes_In in Hold. rewrite Hold in Hf. discriminate.
Qed.

(** X19. No file is listed twice, as long as no batch holds two new files
    of one name: an upload that goes through keeps the list of names free of
    repetitions when the names of the files it adds are pairwise distinct.
    The check reads the knowledge base as it was when the upload began, so a
    new file picked twice in one batch is processed twice, and its chunks
    and its name are appended twice. *)
Theorem fileNames_listed_once :
  (forall pdfjsLoaded st files,
      NoDup (KB.fileNames (App.knowledgeBase st)) ->
      NoDup (map name (filter (fresh (App.knowledgeBase st)) files)) ->
      snd (App.handleFileUpload pdfjsLoaded st files) = [] ->
      NoDup (KB.fileNames
               (App.knowledgeBase
                  (fst (App.handleFileUpload pdfjsLoaded st files))))) /\
  (forall pdfjsLoaded st file chunks,
      App.arrayIncludes (KB.fileNames (App.knowledgeBase st)) (name file)
      = false ->
      processFile pdfjsLoaded file = Normal chunks ->
      App.knowledgeBase (fst (App.handleFileUpload pdfjsLoaded st [file; file]))
      = {| KB.chunks := KB.chunks (App.knowledgeBase st) ++ chunks ++ chunks;
           KB.fileNames := KB.fileNames (App.knowledgeBase st)
                           ++ [name file; name file] |}).
Proof.
  split.
  - intros pdfjsLoaded st files Hold Hnew. unfold App.handleFileUpload.
    destruct (List.length files =? 0); trivial.
    destruct (App.uploadLoop pdfjsLoaded (App.knowledgeBase st) files [] [])
      as [[newChunks newNames]|e] eqn:Hloop; simpl; [|discriminate].
    intros _. destruct (uploadLoop_result _ _ _ _ _ Hloop)
      as [made [_ [_ ->]]].
    simpl app. apply NoDup_app; trivial.
    intros s Hs Hs'. now apply (fresh_not_listed _ _ _ Hs').
  - intros pdfjsLoaded st file chunks Hnew Hok.
    unfold App.handleFileUpload. simpl.
    rewrite Hnew, Hok. simpl. reflexivity.
Qed.

Lemma fileNames_listed_once_witness :
  KB.fileNames
    (App.knowledgeBase
       (fst (App.handleFileUpload true App.initial [samplePdf; samplePdf])))
  = [lit "Book.PDF"; lit "Book.PDF"].
Proof.
  rewrite (proj2 fileNames_listed_once true App.initial samplePdf
             (chunkText (pdfFullText 1 [ map lit ["Hello"; "world"]%string;
                                         map lit ["Bye"]%string ] [])
                        (lit "Book.PDF"))).
  - reflexivity.
  - reflexivity.
  - reflexivity.
Defined.

(** X20. The knowledge base stays well formed: it is at the start, after
    a reset, and after any upload, whether it went through or not, every
    chunk names a file that the knowledge base lists. *)
Theorem kbWellFormed_kept :
  kbWellFormed (App.knowledgeBase App.initial) /\
  (forall st, kbWellFormed (App.knowledgeBase (App.clearKnowledgeBase st))) /\
  (forall pdfjsLoaded st files,
      kbWellFormed (App.knowledgeBase st) ->
      kbWellFormed
        (App.knowledgeBase (fst (App.handleFileUpload pdfjsLoaded st files)))).
Proof.
  split; [constructor|]. split; [constructor|].
  intros pdfjsLoaded st files Hwf. unfold App.handleFileUpload.
  destruct (List.length files =? 0); trivial.
  destruct (App.uploadLoop pdfjsLoaded (App.knowledgeBase st) files [] [])
    as [[newChunks newNames]|e] eqn:Hloop; trivial.
  unfold kbWellFormed. cbn [fst App.knowledgeBase KB.chunks KB.fileNames].
  apply Forall_app. split.
  - eapply Forall_impl; [|exact Hwf]. intros c Hc. apply in_or_app. now left.
  - eapply Forall_impl;
      [|exact (proj2 (proj2 (uploadLoop_names _ _ _ _ _ Hloop))
                     (Forall_nil _))].
    intros c Hc. apply in_or_app. now right.
Qed.

Lemma kbWellFormed_kept_witness :
  kbWellFormed
    (App.knowledgeBase
       (fst (App.handleFileUpload true App.initial [sampleTable; samplePdf]))).
Proof.
  apply (proj2 (proj2 kbWellFormed_kept)).
  apply (proj1 kbWellFormed_kept).
Defined.

(* ===================================================================== *)
(** * The callers: the generation request and the conversation *)
(* ===================================================================== *)

Lemma startsWith_self_app (s q : jsstring) : startsWith (s ++ q) s = true.
Proof.
  induction s as [|c s IH]; simpl.
  - destruct q; reflexivity.
  - now rewrite Ascii.eqb_refl.
Qed.

Lemma includes_app_r (p s needle : jsstring) :
  includes s needle = true -> includes (p ++ s) needle = true.
Proof.
  intros H. induction p as [|c p IH]; simpl; trivial.
  rewrite IH. apply orb_true_r.
Qed.

Lemma startsWith_includes (s needle : jsstring) :
  startsWith s needle = true -> includes s needle = true.
Proof. intros H. destruct s; simpl in *; now rewrite H. Qed.

Lemma includes_prefix (s q : jsstring) : includes (s ++ q) s = true.
Proof. apply startsWith_includes, startsWith_self_app. Qed.

Lemma includes_self (s : jsstring) : includes s s = true.
Proof. rewrite <- (app_nil_r s) at 1. apply includes_prefix. Qed.

Lemma startsWith_app (s q needle : jsstring) :
  startsWith s needle = true -> startsWith (s ++ q) needle = true.
Proof.
  revert needle. induction s as [|a s IH]; intros needle H.
  - destruct needle; [|discriminate]. destruct q; reflexivity.
  - destruct needle as [|b needle]; [reflexivity|].
    simpl in *. apply andb_true_iff in H as [-> H]. simpl. now apply IH.
Qed.

Lemma includes_app_l (s q needle : jsstring) :
  includes s needle = true -> includes (s ++ q) needle = true.
Proof.
  induction s as [|c s IH]; intros H.
  - destruct needle; [apply includes_empty | discriminate].
  - change (includes ((c :: s) ++ q) needle)
      with (startsWith ((c :: s) ++ q) needle || includes (s ++ q) needle).
    change (includes (c :: s) needle)
      with (startsWith (c :: s) needle || includes s needle) in H.
    apply orb_true_iff in H as [H|H]; apply orb_true_iff.
    + left. now apply startsWith_app.
    + right. now apply IH.
Qed.

Lemma includes_join (sep x : jsstring) (parts : list jsstring) :
  In x parts -> includes (join sep parts) x = true.
Proof.
  induction parts as [|p parts IH]; [contradiction|].
  intros [->|Hin].
  - destruct parts as [|p' parts].
    + apply includes_self.
    + apply (includes_prefix x (sep ++ join sep (p' :: parts))).
  - destruct parts as [|p' parts]; [contradiction|].
    change (join sep (p :: p' :: parts))
      with (p ++ sep ++ join sep (p' :: parts)).
    apply includes_app_r, includes_app_r. now apply IH.
Qed.

(** X21. The request is grounded in the selection and carries the
    conversation. With an empty selection the system instruction holds the
    no-context notice; with a non-empty one it holds, for every selected
    chunk, its citation line and so its whole content. The contents are the
    history, entry by entry and in order, followed by the user's message:
    the [k]-th message of the history is the [k]-th entry, with its text as
    the only part, sent as a user turn when it is the user's and as a model
    turn when it is the assistant's or the system's; the entry after them,
    the last, is the user's message as a user turn. The model asked is
    gemini-3-flash-preview. *)
Theorem requestOf_grounded (userMessage : jsstring)
  (history : list Msg.Message) (relevantChunks : list DocumentChunk) :
  let request := Gemini.requestOf userMessage history relevantChunks in
  (relevantChunks = [] ->
   includes (Gemini.systemInstruction request) Gemini.noContext = true) /\
  (forall c, In c relevantChunks ->
     includes (Gemini.systemInstruction request) (Gemini.citation c) = true /\
     includes (Gemini.systemInstruction request) (content c) = true) /\
  List.length (Gemini.contents request) = List.length history + 1 /\
  last (Gemini.contents request) (Gemini.mkContent [] [])
  = Gemini.mkContent "user" [userMessage] /\
  (forall k m,
      nth_error history k = Some m ->
      nth_error (Gemini.contents request) k
      = Some (Gemini.mkContent
                (match Msg.role m with
                 | Msg.user => lit "user"
                 | Msg.assistant => lit "model"
                 | Msg.system => lit "model"
                 end)
                [Msg.content m])) /\
  nth_error (Gemini.contents request) (List.length history)
  = Some (Gemini.mkContent "user" [userMessage]) /\
  Gemini.model request = lit "gemini-3-flash-preview".
Proof.
  cbv zeta. unfold Gemini.requestOf.
  cbn [Gemini.systemInstruction Gemini.contents Gemini.model].
  split; [|split; [|split; [|split; [|split; [|split]]]]].
  - intros ->. unfold Gemini.systemInstructionOf, Gemini.contextOf.
    simpl Nat.ltb. cbv iota.
    do 5 apply includes_app_r. apply includes_prefix.
  - intros c Hc.
    assert (Hcite : includes (Gemini.contextOf relevantChunks)
                             (Gemini.citation c) = true).
    { unfold Gemini.contextOf.
      destruct relevantChunks as [|c0 rest]; [contradiction|].
      simpl Nat.ltb. cbv iota.
      do 7 apply includes_app_r. apply includes_app_l.
      apply includes_join. now apply in_map. }
    assert (Hcontent : includes (Gemini.contextOf relevantChunks)
                                (content c) = true).
    { unfold Gemini.contextOf.
      destruct relevantChunks as [|c0 rest]; [contradiction|].
      simpl Nat.ltb. cbv iota.
      do 7 apply includes_app_r. apply includes_app_l.
      set (cites := map Gemini.citation (c0 :: rest)).
      assert (Hin : In (Gemini.citation c) cites) by now apply in_map.
      clearbody cites. clear Hcite Hc.
      induction cites as [|p parts IH]; [contradiction|].
      destruct Hin as [->|Hin].
      - assert (Hp : includes (Gemini.citation c) (content c) = true).
        { unfold Gemini.citation. do 3 apply includes_app_r.
          apply includes_self. }
        destruct parts as [|p' parts]; [exact Hp|].
        change (join (newline ++ newline) (Gemini.citation c :: p' :: parts))
          with (Gemini.citation c ++ (newline ++ newline)
                ++ join (newline ++ newline) (p' :: parts)).
        now apply includes_app_l.
      - destruct parts as [|p' parts]; [contradiction|].
        change (join (newline ++ newline) (p :: p' :: parts))
          with (p ++ (newline ++ newline)
                ++ join (newline ++ newline) (p' :: parts)).
        apply includes_app_r, includes_app_r. now apply IH. }
    unfold Gemini.systemInstructionOf.
    split; do 5 apply includes_app_r; now apply includes_app_l.
  - rewrite length_app, length_map. reflexivity.
  - apply last_last.
  - intros k m Hk.
    rewrite nth_error_app1
      by (rewrite length_map; apply nth_error_Some; congruence).
    rewrite nth_error_map, Hk. simpl. destruct (Msg.role m); reflexivity.
  - rewrite nth_error_app2 by (rewrite length_map; lia).
    rewrite length_map, Nat.sub_diag. reflexivity.
  - reflexivity.
Qed.

Lemma requestOf_grounded_witness :
  includes
    (Gemini.systemInstruction
       (Gemini.requestOf "Hello?"
          [Msg.mkMessage "1" Msg.user "Hi" 1 None;
           Msg.mkMessage "2" Msg.system "Oops" 2 None]
          (chunkText "--- Page 1 ---" "Book.PDF")))
    (lit "[From Book.PDF]: --- Page 1 ---") = true /\
  nth_error
    (Gemini.contents
       (Gemini.requestOf "Hello?"
          [Msg.mkMessage "1" Msg.user "Hi" 1 None;
           Msg.mkMessage "2" Msg.system "Oops" 2 None]
          (chunkText "--- Page 1 ---" "Book.PDF"))) 1
  = Some (Gemini.mkContent "model" [lit "Oops"]).
Proof.
  destruct (requestOf_grounded (lit "Hello?")
              [Msg.mkMessage "1" Msg.user "Hi" 1 None;
               Msg.mkMessage "2" Msg.system "Oops" 2 None]
              (chunkText "--- Page 1 ---" "Book.PDF"))
    as [_ [Hcite [_ [_ [Hentry _]]]]].
  split.
  - apply (Hcite (mkChunk "Book.PDF" "--- Page 1 ---" 0)).
    vm_compute. now left.
  - apply (Hentry 1 (Msg.mkMessage "2" Msg.system "Oops" 2 None)).
    reflexivity.
Defined.

(** X22. [generateResponse] never resolves to an empty text: it resolves
    to the text of the model when that is not empty, and to the apology when
    the model gives no text or an empty one. It rejects exactly when the
    call of the model rejects, with the same exception, after logging it. *)
Theorem generateResponse_outcomes
  (ai : Gemini.Request -> completion (option jsstring))
  (userMessage : jsstring) (history : list Msg.Message)
  (relevantChunks : list DocumentChunk) :
  let request := Gemini.requestOf userMessage history relevantChunks in
  (forall answer,
      fst (Gemini.generateResponse ai userMessage history relevantChunks)
      = Normal answer ->
      answer <> [] /\
      (ai request = Normal (Some answer) \/
       (answer = lit "I'm sorry, I couldn't generate a response." /\
        (ai request = Normal None \/ ai request = Normal (Some []))))) /\
  (forall e,
      fst (Gemini.generateResponse ai userMessage history relevantChunks)
      = Throw e <-> ai request = Throw e) /\
  (forall e,
      ai request = Throw e ->
      snd (Gemini.generateResponse ai userMessage history relevantChunks)
      = [lit "Gemini API Error:"]).
Proof.
  cbv zeta. unfold Gemini.generateResponse.
  destruct (ai (Gemini.requestOf userMessage history relevantChunks))
    as [[[|c s]|]|e0]; simpl; (split; [|split]);
    try (intros e; split; intros H; congruence);
    try (intros e H; (discriminate || reflexivity)).
  - intros answer [= <-]. split; [discriminate|]. right. auto.
  - intros answer [= <-]. split; [discriminate|]. now left.
  - intros answer [= <-]. split; [discriminate|]. right. auto.
Qed.

Lemma generateResponse_outcomes_witness :
  lit "I'm sorry, I couldn't generate a response." <> [].
Proof.
  apply (proj1 (generateResponse_outcomes aiMute (lit "Hello?") [] [])
               (lit "I'm sorry, I couldn't generate a response.")).
  reflexivity.
Defined.

Lemma sliceFrom_last (A : Type) (l : list A) (k : nat) :
  0 < k -> sliceFrom l (- Z.of_nat k) = skipn (List.length l - k) l.
Proof.
  intros Hpos. unfold sliceFrom, slice, relIndex.
  destruct (Z.ltb_spec (- Z.of_nat k) 0) as [Hk|Hk].
  - destruct (Z.ltb_spec (Z.of_nat (List.length l)) 0); [lia|].
    rewrite Z.min_id.
    replace (Z.to_nat (Z.max (Z.of_nat (List.length l) + - Z.of_nat k) 0))
      with (List.length l - k) by lia.
    apply firstn_all2. rewrite length_skipn. lia.
  - lia.
Qed.

(** X23. A question that is blank, or asked while an answer is awaited,
    is dropped: the state does not change, nothing is retrieved and the
    model is not called. *)
Theorem handleSendMessage_drops
  (ai : Gemini.Request -> completion (option jsstring)) (now : nat -> Z)
  (st : App.State) :
  blank (App.inputText st) \/ App.isLoading st = true ->
  App.handleSendMessage ai now st = st.
Proof.
  intros H. unfold App.handleSendMessage.
  destruct H as [H|H].
  - apply trim_nil_iff in H. rewrite H. reflexivity.
  - rewrite H. now rewrite orb_true_r.
Qed.

Lemma handleSendMessage_drops_witness :
  App.handleSendMessage aiDown (fun _ => 0%Z)
    (App.mkState [] (lit "  ") false (KB.mkKnowledgeBase [] []) false)
  = App.mkState [] (lit "  ") false (KB.mkKnowledgeBase [] []) false.
Proof.
  apply handleSendMessage_drops. left. repeat constructor.
Defined.

(** X24. A question that is not blank, asked while no answer is awaited,
    appends exactly two messages: the question as typed, and the reply. The
    model is asked with the question as typed, the last five messages from
    before the question (all of them when there are fewer) and the chunks
    selected with the default limit. The reply is the assistant's, with a
    text that is not empty and the sources of the selection, when the model
    answers; it is the system's apology, without sources, when the call
    fails. The input is cleared and the knowledge base is left alone. *)
Theorem handleSendMessage_appends
  (ai : Gemini.Request -> completion (option jsstring)) (now : nat -> Z)
  (st : App.State) :
  ~ blank (App.inputText st) ->
  App.isLoading st = false ->
  let st' := App.handleSendMessage ai now st in
  let selected :=
    fst (findRelevantChunks (App.inputText st)
           (KB.chunks (App.knowledgeBase st)) 30) in
  let asked :=
    Gemini.requestOf (App.inputText st)
      (skipn (List.length (App.messages st) - 5) (App.messages st)) selected in
  exists reply,
    App.messages st'
    = App.messages st
      ++ [ Msg.mkMessage (App.ofZ (now 0)) Msg.user (App.inputText st)
                         (now 1) None;
           reply ] /\
    App.inputText st' = [] /\
    App.isLoading st' = false /\
    App.knowledgeBase st' = App.knowledgeBase st /\
    ((exists text, ai asked = Normal text /\
        Msg.role reply = Msg.assistant /\
        Msg.content reply <> [] /\
        (text = Some (Msg.content reply) \/ Msg.content reply = Gemini.apology) /\
        Msg.sources reply = Some (App.arrayFromSet (map fileName selected)))
     \/
     (exists e, ai asked = Throw e /\
        Msg.role reply = Msg.system /\
        Msg.content reply
        = lit "Oops! Something went wrong while generating the response." /\
        Msg.sources reply = None)).
Proof.
  intros Hblank Hload. cbv zeta. unfold App.handleSendMessage.
  assert (Htrim : (List.length (trim (App.inputText st)) =? 0) = false).
  { apply Nat.eqb_neq. intros H. apply Hblank, trim_nil_iff.
    now apply length_zero_iff_nil. }
  rewrite Htrim, Hload. simpl orb. cbv iota.
  change (-5)%Z with (- Z.of_nat 5)%Z. rewrite sliceFrom_last by lia.
  unfold Gemini.generateResponse.
  change DEFAULT_LIMIT with 30%Z.
  destruct (ai _) as [[[|c s]|]|e] eqn:Hai; simpl fst; cbv iota;
    eexists; (split; [reflexivity|]); repeat split.
  - left. exists (Some []). repeat split; try discriminate. now right.
  - left. exists (Some (c :: s)). repeat split; try discriminate. now left.
  - left. exists None. repeat split; try discriminate. now right.
  - right. exists e. repeat split.
Qed.

Lemma handleSendMessage_appends_witness :
  List.length (App.messages
                 (App.handleSendMessage (aiSays "Hi.") (fun k => Z.of_nat k)
                    askingState)) = 2.
Proof.
  destruct (@handleSendMessage_appends (aiSays "Hi.") (fun k => Z.of_nat k)
              askingState) as [reply [-> _]].
  - intros H. inversion H as [|? ? _ H1]; subst.
    inversion H1 as [|? ? _ H2]; subst.
    inversion H2 as [|? ? H3 _]; subst. discriminate.
  - reflexivity.
  - reflexivity.
Defined.

Lemma setAdd_spec (set : list jsstring) (x : jsstring) :
  NoDup set ->
  NoDup (App.setAdd set x) /\
  forall y, In y (App.setAdd set x) <-> In y set \/ y = x.
Proof.
  intros Hnd. unfold App.setAdd.
  destruct (App.arrayIncludes set x) eqn:Hinc.
  - apply arrayIncludes_In in Hinc. split; trivial.
    intros y. split; [now left | intros [H| ->]; trivial].
  - assert (Hnot : ~ In x set).
    { intros H. apply arrayIncludes_In in H. congruence. }
    split.
    + apply (Permutation_NoDup (Permutation_cons_append set x)).
      now constructor.
    + intros y. rewrite in_app_iff. simpl. intuition.
Qed.

Lemma arrayFromSet_from (xs set : list jsstring) :
  NoDup set ->
  NoDup (fold_left App.setAdd xs set) /\
  forall y, In y (fold_left App.setAdd xs set) <-> In y set \/ In y xs.
Proof.
  revert set. induction xs as [|x xs IH]; intros set Hnd; simpl.
  - split; trivial. intros y. tauto.
  - destruct (setAdd_spec x Hnd) as [Hnd' Hin'].
    destruct (IH _ Hnd') as [Hnd'' Hin'']. split; trivial.
    intros y. rewrite Hin'', Hin'. intuition.
Qed.

(** X25. The sources shown under an answer are the file names of the
    selected chunks, each once; they are files that the knowledge base
    lists, provided the knowledge base is well formed; and there is none
    exactly when the knowledge base holds no chunk. *)
Theorem cited_sources (query : jsstring) (kb : KB.KnowledgeBase) (limit : Z) :
  let selected := fst (findRelevantChunks query (KB.chunks kb) limit) in
  let cited := App.arrayFromSet (map fileName selected) in
  NoDup cited /\
  (forall s, In s cited <-> exists c, In c selected /\ fileName c = s) /\
  (kbWellFormed kb -> Forall (fun s => In s (KB.fileNames kb)) cited) /\
  (cited = [] <-> KB.chunks kb = []).
Proof.
  cbv zeta. unfold App.arrayFromSet.
  destruct (arrayFromSet_from
              (map fileName
                 (fst (findRelevantChunks query (KB.chunks kb) limit)))
              (NoDup_nil _)) as [Hnd Hin].
  assert (Hmem : forall s,
             In s (fold_left App.setAdd
                     (map fileName
                        (fst (findRelevantChunks query (KB.chunks kb) limit)))
                     [])
             <-> exists c,
                 In c (fst (findRelevantChunks query (KB.chunks kb) limit))
                 /\ fileName c = s).
  { intros s. rewrite Hin, in_map_iff. simpl. split.
    - intros [[]|[c [E Hc]]]. now exists c.
    - intros [c [Hc E]]. right. now exists c. }
  split; [exact Hnd|]. split; [exact Hmem|]. split.
  - intros Hwf. apply Forall_forall. intros s Hs.
    apply Hmem in Hs as [c [Hc <-]].
    apply findRelevantChunks_In in Hc.
    unfold kbWellFormed in Hwf. rewrite Forall_forall in Hwf. now apply Hwf.
  - rewrite <- (findRelevantChunks_nil_iff query (KB.chunks kb) limit).
    split; intros H.
    + destruct (fst (findRelevantChunks query (KB.chunks kb) limit))
        as [|c rest]; trivial.
      assert (Hc : In (fileName c)
                      (fold_left App.setAdd (map fileName (c :: rest)) [])).
      { apply Hin. right. now left. }
      rewrite H in Hc. contradiction.
    + now rewrite H.
Qed.

Lemma cited_sources_witness :
  Forall (fun s => In s [lit "report.csv"; lit "Book.PDF"])
    (App.arrayFromSet
       (map fileName
          (fst (findRelevantChunks "hello north"
                  (KB.chunks
                     (App.knowledgeBase
                        (fst (App.handleFileUpload true App.initial
                                [sampleTable; samplePdf]))))
                  DEFAULT_LIMIT)))).
Proof.
  apply (proj1 (proj2 (proj2
           (cited_sources (lit "hello north")
              (App.knowledgeBase
                 (fst (App.handleFileUpload true App.initial
                         [sampleTable; samplePdf])))
              DEFAULT_LIMIT)))).
  unfold kbWellFormed. vm_compute.
  repeat (apply Forall_cons; [auto 6|]). apply Forall_nil.
Defined.

(* ===================================================================== *)
(** * The retriever: query terms *)
(* ===================================================================== *)

Lemma startsWith_decompose (s needle : jsstring) :
  startsWith s needle = true -> exists q, s = needle ++ q.
Proof.
  revert s. induction needle as [|a needle IH]; intros s H.
  - now exists s.
  - destruct s as [|b s]; [discriminate|]. simpl in H.
    apply andb_true_iff in H as [Hab H].
    apply Ascii.eqb_eq in Hab. subst b.
    destruct (IH s H) as [q ->]. now exists q.
Qed.

Lemma includes_iff (s needle : jsstring) :
  includes s needle = true <-> exists p q, s = p ++ needle ++ q.
Proof.
  split.
  - induction s as [|c s IH]; intros H.
    + destruct needle; [now exists [], [] | discriminate].
    + change (includes (c :: s) needle)
        with (startsWith (c :: s) needle || includes s needle) in H.
      apply orb_true_iff in H as [H|H].
      * destruct (startsWith_decompose _ _ H) as [q ->]. now exists [], q.
      * destruct (IH H) as [p [q ->]]. now exists (c :: p), q.
  - intros [p [q ->]]. apply includes_app_r, includes_prefix.
Qed.

Lemma includes_trans (s t u : jsstring) :
  includes s t = true -> includes t u = true -> includes s u = true.
Proof.
  intros H1 H2. apply includes_iff in H1 as [p [q ->]].
  apply includes_app_r, includes_app_l. exact H2.
Qed.

Lemma splitNonWordFrom_pieces (s cur : jsstring) (insep : bool) :
  Forall (fun ch => isWordChar ch = true) cur ->
  Forall (fun piece =>
            Forall (fun ch => isWordChar ch = true) piece /\
            includes (cur ++ s) piece = true)
         (splitNonWordFrom s cur insep).
Proof.
  revert cur insep. induction s as [|c s IH]; intros cur insep Hcur; simpl.
  - constructor; [|constructor]. split; trivial.
    rewrite app_nil_r. apply includes_self.
  - destruct (isWordChar c) eqn:Hc.
    + replace (cur ++ c :: s) with ((cur ++ [c]) ++ s)
        by now rewrite <- app_assoc.
      apply IH. apply Forall_app. split; trivial. now repeat constructor.
    + assert (Hrest : Forall (fun piece =>
                         Forall (fun ch => isWordChar ch = true) piece /\
                         includes (cur ++ c :: s) piece = true)
                        (splitNonWordFrom s [] true)).
      { eapply Forall_impl; [|apply (IH [] true); constructor].
        intros piece [Hw Hi]. split; trivial.
        apply includes_app_r. apply (includes_app_r [c]). exact Hi. }
      destruct insep; trivial.
      constructor; trivial. split; trivial. apply includes_prefix.
Qed.

(** X26. The terms of a query are runs of word characters (ASCII letters,
    digits, underscore) of the lower-cased query, each longer than two code
    units: shorter words and everything between the words are dropped. *)
Theorem queryTermsOf_shape (query : jsstring) :
  Forall (fun term =>
            2 < List.length term /\
            Forall (fun ch => isWordChar ch = true) term /\
            includes (toLowerCase query) term = true)
         (queryTermsOf query).
Proof.
  unfold queryTermsOf, splitNonWord.
  pose proof (@splitNonWordFrom_pieces (toLowerCase query) [] false
                (Forall_nil _)) as H.
  rewrite Forall_forall in *. intros term Hterm.
  apply filter_In in Hterm as [Hin Hlen].
  apply Nat.ltb_lt in Hlen. destruct (H term Hin) as [Hw Hi]. auto.
Qed.

Lemma queryTermsOf_included (query : jsstring) (term : jsstring) :
  In term (queryTermsOf query) -> includes (toLowerCase query) term = true.
Proof.
  unfold queryTermsOf, splitNonWord. intros Hterm.
  apply filter_In in Hterm as [Hin _].
  pose proof (@splitNonWordFrom_pieces (toLowerCase query) [] false
                (Forall_nil _)) as H.
  rewrite Forall_forall in H. now apply H.
Qed.

Lemma filter_all (A : Type) (p : A -> bool) (l : list A) :
  (forall x, In x l -> p x = true) -> filter p l = l.
Proof.
  induction l as [|x l IH]; simpl; intros H; trivial.
  rewrite (H x) by now left. f_equal. apply IH. intros y Hy. apply H. now right.
Qed.

(** X27. A chunk whose content contains the whole query, case apart,
    contains every term of it and gets the highest score there is for the
    query: 10 plus the number of terms. No chunk scores more. *)
Theorem scoreOf_exact_phrase (query : jsstring) (c c' : DocumentChunk) :
  includes (toLowerCase (content c)) (toLowerCase query) = true ->
  scoreOf query c = (10 + Z.of_nat (List.length (queryTermsOf query)))%Z /\
  (scoreOf query c' <= scoreOf query c)%Z.
Proof.
  intros H.
  assert (E : scoreOf query c
              = (10 + Z.of_nat (List.length (queryTermsOf query)))%Z).
  { rewrite scoreOf_closed, H, filter_all; trivial.
    intros term Hterm. apply (includes_trans _ _ _ H).
    now apply queryTermsOf_included. }
  split; trivial. rewrite E, (scoreOf_closed query c').
  pose proof (filter_length_le (includes (toLowerCase (content c')))
                (queryTermsOf query)).
  destruct (includes (toLowerCase (content c')) (toLowerCase query)); lia.
Qed.

Lemma scoreOf_exact_phrase_witness :
  scoreOf "tax and rate" (nth 4 taxChunks noChunk) = 13%Z.
Proof.
  apply (@scoreOf_exact_phrase (lit "tax and rate") (nth 4 taxChunks noChunk)
           noChunk).
  reflexivity.
Defined.

(* ===================================================================== *)
(** * The callers: positions per source *)
(* ===================================================================== *)

Lemma processFile_positionsContiguous (pdfjsLoaded : bool) (file : File)
  (chunks : list DocumentChunk) :
  processFile pdfjsLoaded file = Normal chunks -> positionsContiguous chunks.
Proof.
  unfold processFile.
  destruct (isExtension (extension file) "pdf").
  - apply processPDF_positions.
  - destruct (isExtension (extension file) "csv").
    + apply processCSV_positions.
    + discriminate.
Qed.

Lemma made_names (pdfjsLoaded : bool) (files : list File)
  (made : list (list DocumentChunk)) :
  Forall2 (fun file chunks => processFile pdfjsLoaded file = Normal chunks)
          files made ->
  forall c, In c (List.concat made) -> In (fileName c) (map name files).
Proof.
  induction 1 as [|f chunks files made Hf _ IH]; simpl; [contradiction|].
  intros c Hc. apply in_app_or in Hc as [Hc|Hc].
  - left. pose proof (@processFile_fileName _ _ _ Hf) as Hst.
    rewrite Forall_forall in Hst. symmetry. now apply Hst.
  - right. now apply IH.
Qed.

Lemma made_positions (pdfjsLoaded : bool) (files : list File)
  (made : list (list DocumentChunk)) (source : jsstring) :
  Forall2 (fun file chunks => processFile pdfjsLoaded file = Normal chunks)
          files made ->
  NoDup (map name files) ->
  positionsContiguous
    (filter (fun c => eqString (fileName c) source) (List.concat made)).
Proof.
  induction 1 as [|f chunks files made Hf Hrest IH]; simpl; intros Hnd.
  - reflexivity.
  - inversion Hnd as [|? ? Hnotin Hnd']; subst.
    rewrite filter_app.
    pose proof (@processFile_fileName _ _ _ Hf) as Hst.
    rewrite Forall_forall in Hst.
    destruct (list_eq_dec ascii_dec (name f) source) as [E|E].
    + rewrite (@filter_all _ _ chunks), (@filter_none _ _ (List.concat made)).
      * rewrite app_nil_r. now apply (@processFile_positionsContiguous pdfjsLoaded f chunks Hf).
      * intros c Hc. apply (@made_names _ _ _ Hrest c) in Hc.
        destruct (eqString (fileName c) source) eqn:Ec; trivial.
        apply eqString_true_iff in Ec. congruence.
      * intros c Hc. apply eqString_true_iff. rewrite (Hst c Hc). exact E.
    + rewrite (@filter_none _ _ chunks).
      * now apply IH.
      * intros c Hc. destruct (eqString (fileName c) source) eqn:Ec; trivial.
        apply eqString_true_iff in Ec. rewrite (Hst c Hc) in Ec. congruence.
Qed.

(** X28. Per file, the positions stay contiguous in the knowledge base:
    if the chunks of each file, taken out in order, carry the positions
    0, 1, ..., n-1 before an upload, they do after it, provided the upload
    goes through and adds no two files of one name. *)
Theorem perSourcePositions_kept (pdfjsLoaded : bool) (st : App.State)
  (files : list File) :
  kbWellFormed (App.knowledgeBase st) ->
  perSourcePositions (App.knowledgeBase st) ->
  NoDup (map name (filter (fresh (App.knowledgeBase st)) files)) ->
  snd (App.handleFileUpload pdfjsLoaded st files) = [] ->
  perSourcePositions
    (App.knowledgeBase (fst (App.handleFileUpload pdfjsLoaded st files))).
Proof.
  intros Hwf Hpos Hnew. unfold App.handleFileUpload.
  destruct (List.length files =? 0); trivial.
  destruct (App.uploadLoop pdfjsLoaded (App.knowledgeBase st) files [] [])
    as [[newChunks newNames]|e] eqn:Hloop; simpl; [|discriminate].
  intros _. destruct (@uploadLoop_result _ _ _ _ _ _ _ Hloop)
    as [made [Hmade [-> _]]].
  simpl app. intros source. cbn [KB.chunks]. rewrite filter_app.
  destruct (in_dec (list_eq_dec ascii_dec) source
              (KB.fileNames (App.knowledgeBase st))) as [Hold|Hnotold].
  - rewrite (@filter_none _ _ (List.concat made)).
    + rewrite app_nil_r. apply Hpos.
    + intros c Hc. apply (@made_names _ _ _ Hmade c) in Hc.
      destruct (eqString (fileName c) source) eqn:Ec; trivial.
      apply eqString_true_iff in Ec. subst source.
      now apply fresh_not_listed in Hc.
  - rewrite (@filter_none _ _ (KB.chunks (App.knowledgeBase st))).
    + now apply (@made_positions pdfjsLoaded _ made source Hmade).
    + intros c Hc. destruct (eqString (fileName c) source) eqn:Ec; trivial.
      apply eqString_true_iff in Ec. subst source.
      unfold kbWellFormed in Hwf. rewrite Forall_forall in Hwf.
      now apply Hwf in Hc.
Qed.

Lemma perSourcePositions_kept_witness :
  perSourcePositions
    (App.knowledgeBase
       (fst (App.handleFileUpload true App.initial [sampleTable; samplePdf]))).
Proof.
  apply (@perSourcePositions_kept true App.initial [sampleTable; samplePdf]).
  - constructor.
  - intros source. reflexivity.
  - vm_compute. repeat constructor; simpl; intuition discriminate.
  - vm_compute. reflexivity.
Defined.
